(** * Query completion of the chaosctl control client

    A shallow embedding of [pkg/chaosctl/common/ctrlclient.go]:
    the auto-completion context, the argument lister, the recursive
    completion engine and the combination generator, followed by the
    properties of the engine that its design document states.

    Go values are embedded as follows.
    - [int] is a [Z] kept in the 64-bit two's complement range by [int_wrap].
    - [[]string] values that are shared between caller and callee (the query
      path) are slice headers into a store of backing arrays, so that
      [append] and indexed assignment alias exactly as in Go.  Slices that
      are only ever built and read ([leaves], [trunks], results) are lists;
      for those the nil slice and the empty list coincide, since the code
      only grows them with [append] from a nil variable.
    - [map[string]bool] is a [gmap string bool]: the visited map of a context
      is built by [Next] and never written afterwards, so it is a value.
    - [(T, error)] results, together with run-time panics, are an [outcome]. *)

From Stdlib Require Import ZArith Lia Permutation Factorial Ascii String.
From stdpp Require Import gmap strings list pretty.

Set Warnings "-register-all".
Local Open Scope string_scope.
Local Open Scope list_scope.

(** ** Schema and query data *)

(** Modelled from the spec: the [TypeKind] constants are declared in the
    schema file of the package; the data model lists these five kinds. *)
Inductive TypeKind :=
  | ScalarKind | EnumKind | ObjectKind | ListKind | NonNullKind.

(** Modelled from the spec: a type reference is a named type or a
    List/NonNull modifier wrapping another reference. *)
Inductive TypeRef :=
  | NamedRef (kind : TypeKind) (name : string)
  | WrapRef (kind : TypeKind) (ofType : TypeRef).

(** Modelled from the spec: an argument has a name and a type reference. *)
Module Argument.
Record t := mk { Name : string; Type_ : TypeRef }.
End Argument.

(** Modelled from the spec: a field has a name, a type reference and its
    arguments in declaration order. *)
Module Field.
Record t := mk { Name : string; Type_ : TypeRef; Args : list Argument.t }.
End Field.

(** Modelled from the spec: a schema type has a name, a kind and its fields
    in declaration order. *)
Module Type_.
Record t := mk { Kind : TypeKind; Name : string; Fields : list Field.t }.
End Type_.

(** Modelled from the spec: a query node has a name, an optional argument
    value and child nodes keyed by field name, in selection order.  The Go
    field [Fields] is a [map[string]*Query]; the nodes built by
    [ListArguments] have at most one child, for which the order of a
    [range] over the map is determined. *)
Inductive Query :=
  | mkQuery (Name : string) (Argument : option string) (Type_ : Type_.t)
            (Fields : list (string * Query)).

Definition Query_Name (q : Query) : string :=
  match q with mkQuery n _ _ _ => n end.
Definition Query_Fields (q : Query) : list (string * Query) :=
  match q with mkQuery _ _ _ fs => fs end.

(** [NewQuery(name, typ, nil)]: a node without children. *)
Definition NewQuery (name : string) (typ : Type_.t) : Query :=
  mkQuery name None typ [].

(** [q.Fields[key] = child] *)
Fixpoint fields_store (key : string) (child : Query) (fs : list (string * Query))
  : list (string * Query) :=
  match fs with
  | [] => [(key, child)]
  | (k, c) :: fs' =>
      if String.eqb k key then (key, child) :: fs'
      else (k, c) :: fields_store key child fs'
  end.

Definition Query_set_field (key : string) (child : Query) (q : Query) : Query :=
  match q with
  | mkQuery n a t fs => mkQuery n a t (fields_store key child fs)
  end.

(** A decoded response, as [reflect] sees it.  The four scalar cases are the
    [graphql] scalar types of the type switch in [listArguments]; [VOther]
    is a value of any other dynamic type, tagged with the name of its
    [reflect.Kind]; a [VFloat] carries the bits of its float64. *)
Inductive GoValue :=
  | VPtr (elem : option GoValue)
  | VStruct (fields : list (string * GoValue))
  | VSlice (elems : list GoValue)
  | VString (s : string)
  | VBoolean (b : bool)
  | VInt (i : Z)
  | VFloat (bits : Z)
  | VOther (kind : string).

(** ** Errors, panics and outcomes *)

Inductive error :=
  | ErrCannotFindField (name : string) (object : GoValue)
      (* "cannot find field %s in object: %#v" *)
  | ErrResourceKind (kind : string)
      (* "resource of %s kind is not supported" *)
  | ErrUnsupportedValue (v : GoValue)
      (* "unsupported value: %#v" *)
  | ErrTypeNotSupported (root : Type_.t)
      (* "type is not supported to complete: %#v" *)
  | ErrForeign (msg : string).
      (* an error made by the schema code or by the graphql client *)

Inductive panic :=
  | SliceBounds (lo hi : Z)         (* slice bounds out of range *)
  | IndexRange (i : Z) (len : nat)  (* index out of range *)
  | NilDereference.                 (* nil pointer or zero reflect.Value *)

Inductive outcome (A : Type) :=
  | Ok (a : A)
  | Err (e : error)
  | Panic (p : panic).
Arguments Ok {A} a.
Arguments Err {A} e.
Arguments Panic {A} p.

(** ** The permutation packages

    [fullPermutation] drives two generators of the external package
    [gitchander/permutation].  They are modelled by what one pass of their
    [Next] loop visits. *)

(** [combination.New(n, k)]: the k-element index sets of [0..n-1], each as
    an increasing index list, in lexicographic order. *)
Module Comb.
Fixpoint choose {A} (k : nat) (l : list A) : list (list A) :=
  match k, l with
  | O, _ => [[]]
  | S _, [] => []
  | S k', x :: l' => map (cons x) (choose k' l') ++ choose k l'
  end.

Definition rounds (n k : nat) : list (list nat) := choose k (seq 0 n).
End Comb.

(** [permutation.New(s)]: every pass of [for p.Next()] leaves the slice, in
    turn, in each of its orderings, starting from the order it was filled
    in.  The package steps by reversing a prefix of the slice, which visits
    the orderings rotation by rotation: for each rotation of the slice to the
    right, every ordering of all but its last element. *)
Module Prmt.
Definition rotate_right {A} (j : nat) (l : list A) : list A :=
  drop (length l - j) l ++ take (length l - j) l.

Fixpoint rounds_of {A} (n : nat) (l : list A) : list (list A) :=
  match n with
  | O => [l]
  | S m =>
      flat_map
        (fun j =>
           let r := rotate_right j (take n l) in
           map (fun p => p ++ drop m r ++ drop n l) (rounds_of m (take m r)))
        (seq 0 n)
  end.

Definition rounds {A} (l : list A) : list (list A) :=
  rounds_of (length l) l.
End Prmt.

(** ** The combination generator *)

(** [substrs[subsetIndex] = strs[setIndex]] for each index of the
    combination. *)
Definition fill (strs : list string) (indexes : list nat) : list string :=
  map (fun setIndex => nth setIndex strs "") indexes.

Definition fullPermutation (strs : list string) : outcome (list (list string)) :=
  match strs with
  | [] => Panic (SliceBounds 1 0)                     (* strs[1:] *)
  | _ :: tail =>
      Ok (flat_map
            (fun i =>
               let n := length strs in
               let k := (i + 1)%nat in
               flat_map (fun indexes => Prmt.rounds (fill strs indexes))
                        (Comb.rounds n k))
            (seq 0 (length tail)))
  end.

(** ** The store of backing arrays and the monad of the engine *)

(** A slice header: the backing array it points into (every slice of this
    file starts at the first cell of its array), its length and its
    capacity. *)
Record Slice := mkSlice { s_array : nat; s_len : nat; s_cap : nat }.

Abbreviation Heap := (list (list string)).

(** A computation over the store.  [None] is not a Go outcome: it marks a
    run of the model whose recursion allowance was too small to reach the end
    of the call. *)
Definition M (A : Type) : Type := Heap -> option (outcome A * Heap).

Definition ret {A} (a : A) : M A := fun h => Some (Ok a, h).

Definition bind {A B} (m : M A) (k : A -> M B) : M B :=
  fun h =>
    match m h with
    | Some (Ok a, h') => k a h'
    | Some (Err e, h') => Some (Err e, h')
    | Some (Panic p, h') => Some (Panic p, h')
    | None => None
    end.

Definition lift {A} (o : outcome A) : M A := fun h => Some (o, h).

Definition out_of_fuel {A} : M A := fun _ => None.

Notation "'let!' x ':=' m 'in' k" := (bind m (fun x => k))
  (at level 10, x name, m at level 100, k at level 200).
Notation "'let!' ' p ':=' m 'in' k" := (bind m (fun x => match x with p => k end))
  (at level 10, p pattern, m at level 100, k at level 200).

(** [for _, x := range l { s = body(x, s) }], leaving at the first error. *)
Fixpoint for_each {A S} (body : A -> S -> M S) (l : list A) (s : S) : M S :=
  match l with
  | [] => ret s
  | x :: l' => let! s' := body x s in for_each body l' s'
  end.

Definition alloc (xs : list string) : M nat :=
  fun h => Some (Ok (length h), h ++ [xs]).

Definition load (a : nat) : M (list string) :=
  fun h => Some (Ok (default [] (h !! a)), h).

Definition store (a i : nat) (v : string) : M unit :=
  fun h => Some (Ok tt, alter (fun xs => <[i:=v]> xs) a h).

(** [[]string{x, y, ...}] *)
Definition slice_literal (xs : list string) : M Slice :=
  let! a := alloc xs in ret (mkSlice a (length xs) (length xs)).

(** [make([]string, 0)] *)
Definition make_empty : M Slice := slice_literal [].

(** The elements [s[0], ..., s[len(s)-1]]. *)
Definition elements (s : Slice) : M (list string) :=
  let! xs := load (s_array s) in ret (take (s_len s) xs).

(** [s[i]] *)
Definition index (s : Slice) (i : Z) : M string :=
  if decide (0 <= i < Z.of_nat (s_len s))%Z then
    let! xs := load (s_array s) in ret (nth (Z.to_nat i) xs "")
  else lift (Panic (IndexRange i (s_len s))).

(** [s[i] = v] *)
Definition set_index (s : Slice) (i : Z) (v : string) : M unit :=
  if decide (0 <= i < Z.of_nat (s_len s))%Z then store (s_array s) (Z.to_nat i) v
  else lift (Panic (IndexRange i (s_len s))).

(** [s[:hi]] *)
Definition slice_to (s : Slice) (hi : Z) : M Slice :=
  if decide (0 <= hi <= Z.of_nat (s_cap s))%Z then
    ret (mkSlice (s_array s) (Z.to_nat hi) (s_cap s))
  else lift (Panic (SliceBounds hi (Z.of_nat (s_cap s)))).

(** Go's [int], 64 bits wide. *)
Definition int_wrap (z : Z) : Z := ((z + 2 ^ 63) mod 2 ^ 64 - 2 ^ 63)%Z.

Definition Join (elems : list string) (sep : string) : string :=
  match elems with
  | [] => ""
  | e :: es => fold_left (fun acc x => acc +:+ sep +:+ x) es e
  end.

(** Modelled from the spec: [Variables] are named placeholders bound while
    the request shape is built; [NewVariables()] has none bound. *)
Abbreviation Variables := (gmap string GoValue).
Definition NewVariables : Variables := ∅.

(** The schema code of the package is not part of this file; what the engine
    calls of it is an interface.  [Reflect] yields the zero value of the
    struct type that decodes the query, and the variables it bound. *)
Module Schema.
Record t := mk {
  QueryType_Name : string;
  MustGetType : string -> outcome Type_.t;
  resolve : TypeRef -> outcome Type_.t;
  ParseQuery : list string -> Type_.t -> outcome Query;
  Reflect : Query -> Variables -> outcome (GoValue * Variables)
}.
End Schema.

(** [graphql.Client]: [Query] decodes the service's answer into the value it
    is given, or fails. *)
Module Client.
Record t := mk { Query : GoValue -> Variables -> outcome GoValue }.
End Client.

Module CtrlClient.
Record t := mk { Client : Client.t; Schema : Schema.t }.
End CtrlClient.

Definition NamespaceKey := "namespace".
Definition NamespaceType := "Namespace".

Module AutoCompleteContext.
Record t := mk {
  maxRecurLevel : Z;
  visitedTypes : gmap string bool;
  completeLeaves : bool;
  query : Slice
}.
End AutoCompleteContext.
Import AutoCompleteContext.

Definition NewAutoCompleteContext (namespace : string) (level : Z)
    (completeLeaves : bool) : M AutoCompleteContext.t :=
  let! query := slice_literal [NamespaceKey; namespace] in
  ret (AutoCompleteContext.mk level ∅ completeLeaves query).

Definition IsComplete (ctx : AutoCompleteContext.t) : bool :=
  (maxRecurLevel ctx =? 0)%Z.

Definition Visited (ctx : AutoCompleteContext.t) (name : string) : bool :=
  default false (visitedTypes ctx !! name).

(** [reflect.Value.FieldByName]: the first field of that name, if any. *)
Fixpoint FieldByName (name : string) (fields : list (string * GoValue))
  : option GoValue :=
  match fields with
  | [] => None
  | (n, v) :: fields' =>
      if String.eqb n name then Some v else FieldByName name fields'
  end.

(** The child that [for _, f := range resource.Fields] visits first. *)
Definition first_child (r : Query) : option Query :=
  match Query_Fields r with
  | (_, f) :: _ => Some f
  | [] => None
  end.

(** Sequencing of outcomes that do not touch the store. *)
Definition and_then {A B} (o : outcome A) (k : A -> outcome B) : outcome B :=
  match o with
  | Ok a => k a
  | Err e => Err e
  | Panic p => Panic p
  end.

(** ** The engine

    The section variables are what the engine takes from outside the
    package: the growth policy of the Go runtime for [append] on a full
    slice, [pluralize.Plural], [strcase.ToCamel] and the [%f] verb of [fmt]
    on the bits of a float64. *)
Section Engine.

Variable growcap : nat -> nat.
Variable Plural : string -> string.
Variable ToCamel : string -> string.
Variable Sprintf_f : Z -> string.

(** [append(s, v)]: in place when the capacity allows, else into a fresh
    array that holds the old elements. *)
Definition append (s : Slice) (v : string) : M Slice :=
  if decide (s_len s < s_cap s)%nat then
    let! _ := store (s_array s) (s_len s) v in
    ret (mkSlice (s_array s) (s_len s + 1) (s_cap s))
  else
    let! xs := elements s in
    let newcap := Nat.max (s_len s + 1) (growcap (s_cap s)) in
    let! a := alloc (xs ++ v :: replicate (newcap - (s_len s + 1)) "") in
    ret (mkSlice a (s_len s + 1) newcap).

Definition Next (ctx : AutoCompleteContext.t) (typename fieldName arg : string)
  : M AutoCompleteContext.t :=
  let types : gmap string bool :=
    ((fun _ : bool => true) <$> visitedTypes ctx) ∪ {[ typename := true ]} in
  let! query := make_empty in
  let! segs := elements (AutoCompleteContext.query ctx) in
  let! query := for_each (fun seg query => append query seg) segs query in
  let! query := append query fieldName in
  let! query := (if String.eqb arg "" then ret query else append query arg) in
  ret (AutoCompleteContext.mk (int_wrap (maxRecurLevel ctx - 1)) types
         (completeLeaves ctx) query).

Definition kind_name (v : GoValue) : string :=
  match v with
  | VPtr _ => "ptr" | VStruct _ => "struct" | VSlice _ => "slice"
  | VString _ => "string" | VBoolean _ => "bool" | VInt _ => "int32"
  | VFloat _ => "float64" | VOther k => k
  end.

(** The type switch at the end of [listArguments]. *)
Definition scalar_string (object : GoValue) : outcome string :=
  match object with
  | VString v => Ok v
  | VBoolean v => Ok (if v then "true" else "false")
  | VInt v => Ok (pretty v)
  | VFloat v => Ok (Sprintf_f v)
  | v => Err (ErrUnsupportedValue v)
  end.

Fixpoint listArguments (object : GoValue) (resource : option Query)
    (startWith : string) {struct object} : outcome (list string) :=
  match object with
  | VPtr (Some elem) => listArguments elem resource startWith
  | VPtr None => Panic NilDereference
  | VStruct fields =>
      match resource with
      | None => Panic NilDereference
      | Some r =>
          (fix FieldByName (fs : list (string * GoValue)) : outcome (list string) :=
             match fs with
             | [] => Err (ErrCannotFindField (Query_Name r) object)
             | (name, field) :: fs' =>
                 if String.eqb name (ToCamel (Query_Name r)) then
                   match Query_Fields r with
                   | (_, f) :: _ => listArguments field (Some f) startWith
                   | [] => listArguments field None startWith
                   end
                 else FieldByName fs'
             end) fields
      end
  | VSlice elems =>
      (fix loop (vs : list GoValue) (slice : list string) : outcome (list string) :=
         match vs with
         | [] => Ok slice
         | v :: vs' =>
             match listArguments v resource startWith with
             | Ok arguments => loop vs' (slice ++ arguments)
             | failure => failure
             end
         end) elems []
  | _ =>
      match resource with
      | Some _ => Err (ErrResourceKind (kind_name object))
      | None =>
          match scalar_string object with
          | Ok val => if String.prefix startWith val then Ok [val] else Ok []
          | Err e => Err e
          | Panic p => Panic p
          end
      end
  end.

Variable c : CtrlClient.t.

Definition GetQueryType : outcome Type_.t :=
  Schema.MustGetType (CtrlClient.Schema c)
    (Schema.QueryType_Name (CtrlClient.Schema c)).

Definition ListArguments (queryStr : Slice) (argumentName : string)
  : M (list string) :=
  let! queryType := lift GetQueryType in
  let! listQuery := slice_to queryStr (Z.of_nat (s_len queryStr) - 1) in
  let! last := index listQuery (Z.of_nat (s_len listQuery) - 1) in
  let! _ := set_index listQuery (Z.of_nat (s_len listQuery) - 1) (Plural last) in
  let! listQuery := append listQuery argumentName in
  let! path := elements listQuery in
  let! query := lift (Schema.ParseQuery (CtrlClient.Schema c) path queryType) in
  let superQuery := Query_set_field "namespace" query (NewQuery "query" queryType) in
  let variables := NewVariables in
  let! '(queryStruct, variables) :=
    lift (Schema.Reflect (CtrlClient.Schema c) superQuery variables) in
  let! queryValue := lift (Client.Query (CtrlClient.Client c) queryStruct variables) in
  let! startWith := index queryStr (Z.of_nat (s_len queryStr) - 1) in
  lift (listArguments (VPtr (Some queryValue)) (Some query) startWith).

(** What [ListArguments] asks of the schema and of the service once the
    path of the list query and the prefix to filter by are fixed: the part
    of its body that does not touch the query slice. *)
Definition list_request (path : list string) (startWith : string)
  : outcome (list string) :=
  and_then GetQueryType (fun queryType =>
  and_then (Schema.ParseQuery (CtrlClient.Schema c) path queryType) (fun query =>
  and_then (Schema.Reflect (CtrlClient.Schema c)
              (Query_set_field "namespace" query (NewQuery "query" queryType))
              NewVariables) (fun reflected =>
  and_then (Client.Query (CtrlClient.Client c) (fst reflected) (snd reflected))
    (fun queryValue =>
  listArguments (VPtr (Some queryValue)) (Some query) startWith)))).

(** A step of the request fails with [e]: parsing the path, building the
    request shape, executing the query, or extracting the leaf values. *)
Definition request_fails (path : list string) (startWith : string) (e : error)
  : Prop :=
  exists queryType, GetQueryType = Ok queryType /\
    (Schema.ParseQuery (CtrlClient.Schema c) path queryType = Err e \/
     exists query,
       Schema.ParseQuery (CtrlClient.Schema c) path queryType = Ok query /\
       let superQuery :=
         Query_set_field "namespace" query (NewQuery "query" queryType) in
       (Schema.Reflect (CtrlClient.Schema c) superQuery NewVariables = Err e \/
        exists queryStruct variables,
          Schema.Reflect (CtrlClient.Schema c) superQuery NewVariables =
            Ok (queryStruct, variables) /\
          (Client.Query (CtrlClient.Client c) queryStruct variables = Err e \/
           exists queryValue,
             Client.Query (CtrlClient.Client c) queryStruct variables =
               Ok queryValue /\
             listArguments (VPtr (Some queryValue)) (Some query) startWith =
               Err e))).

(** One round of the loop over [root.Fields]; [recur] is the recursive call. *)
Definition field_step
    (recur : AutoCompleteContext.t -> Type_.t -> M (list string))
    (ctx : AutoCompleteContext.t) (field : Field.t)
    (acc : list string * list string) : M (list string * list string) :=
  let '(trunks, leaves) := acc in
  let! subType := lift (Schema.resolve (CtrlClient.Schema c) (Field.Type_ field)) in
  if Visited ctx (Type_.Name subType) then ret (trunks, leaves)
  else
    match Field.Args field with
    | [] =>
        let! next := Next ctx (Type_.Name subType) (Field.Name field) "" in
        let! subQueries := recur next subType in
        match subQueries with
        | [] => ret (trunks, leaves ++ [Field.Name field])
        | _ =>
            ret (trunks ++
                   map (fun subQuery => Join [Field.Name field; subQuery] "/")
                       subQueries,
                 leaves)
        end
    | arg0 :: _ =>
        let! queryStr := append (AutoCompleteContext.query ctx) (Field.Name field) in
        let! args := ListArguments queryStr (Argument.Name arg0) in
        let! trunks :=
          for_each
            (fun arg trunks =>
               let! next := Next ctx (Type_.Name subType) (Field.Name field) arg in
               let! subQueries := recur next subType in
               ret (trunks ++
                      map (fun subQuery =>
                             Join [Field.Name field; arg; subQuery] "/")
                          subQueries))
            args trunks in
        ret (trunks, leaves)
    end.

(** The leaf assembly that ends [completeQuery]. *)
Definition assemble (ctx : AutoCompleteContext.t) (trunks leaves : list string)
  : outcome (list string) :=
  match
    (if negb (completeLeaves ctx) then Ok leaves
     else
       match fullPermutation leaves with
       | Ok perms => Ok (map (fun leafPrmt => Join leafPrmt ",") perms)
       | Err e => Err e
       | Panic p => Panic p
       end)
  with
  | Ok queries => Ok (queries ++ trunks)
  | failure => failure
  end.

(** [completeQuery], with the number of nested calls it may make. *)
Fixpoint completeQuery (fuel : nat) (ctx : AutoCompleteContext.t)
    (root : Type_.t) {struct fuel} : M (list string) :=
  match fuel with
  | O => out_of_fuel
  | S fuel' =>
      if IsComplete ctx then ret []
      else
        match Type_.Kind root with
        | ScalarKind | EnumKind => ret []
        | ListKind | NonNullKind => lift (Err (ErrTypeNotSupported root))
        | _ =>
            let! '(trunks, leaves) :=
              for_each (field_step (completeQuery fuel') ctx)
                       (Type_.Fields root) ([], []) in
            lift (assemble ctx trunks leaves)
        end
  end.

(** [CompleteQuery]; the allowance of seven nested calls covers the budget
    of six: no larger allowance changes the result. *)
Definition CompleteQuery (namespace : string) (completeLeaves : bool)
  : M (list string) :=
  let! namespaceType :=
    lift (Schema.MustGetType (CtrlClient.Schema c) NamespaceType) in
  let! ctx := NewAutoCompleteContext namespace 6 completeLeaves in
  completeQuery 7 ctx namespaceType.

End Engine.

(** ** A fixture

    A service with one namespace, [ns1], that holds the pods [p1] and [p2];
    the Go runtime's doubling growth; a pluralizer that adds an s; a
    camel-caser for single lower-case words. *)
Module Fixture.

Definition growcap (c : nat) : nat := if (c =? 0)%nat then 1%nat else (2 * c)%nat.

Definition ends_with_s (s : string) : bool :=
  match String.rev s with String "s"%char _ => true | _ => false end.

Definition Plural (s : string) : string :=
  if ends_with_s s then s else s +:+ "s".

Definition upper (a : ascii) : ascii :=
  let n := Ascii.nat_of_ascii a in
  if ((97 <=? n) && (n <=? 122))%nat then Ascii.ascii_of_nat (n - 32) else a.

Definition ToCamel (s : string) : string :=
  match s with
  | EmptyString => EmptyString
  | String a rest => String (upper a) rest
  end.

Definition Sprintf_f (bits : Z) : string := "0.000000".

Definition String_ : Type_.t := Type_.mk ScalarKind "String" [].

Definition Pod : Type_.t :=
  Type_.mk ObjectKind "Pod"
    [Field.mk "name" (NamedRef ScalarKind "String") [];
     Field.mk "action" (NamedRef ScalarKind "String") []].

Definition Namespace : Type_.t :=
  Type_.mk ObjectKind "Namespace"
    [Field.mk "ns" (NamedRef ScalarKind "String") [];
     Field.mk "pods" (WrapRef ListKind (NamedRef ObjectKind "Pod")) []].

Definition QueryRoot : Type_.t :=
  Type_.mk ObjectKind "Query"
    [Field.mk "namespace" (WrapRef ListKind (NamedRef ObjectKind "Namespace"))
       [Argument.mk "ns" (NamedRef ScalarKind "String")]].

(** A type that refers to itself. *)
Definition Node : Type_.t :=
  Type_.mk ObjectKind "Node"
    [Field.mk "name" (NamedRef ScalarKind "String") [];
     Field.mk "next" (NamedRef ObjectKind "Node") []].

Definition MustGetType (name : string) : outcome Type_.t :=
  if String.eqb name "Query" then Ok QueryRoot
  else if String.eqb name "Namespace" then Ok Namespace
  else if String.eqb name "Pod" then Ok Pod
  else if String.eqb name "Node" then Ok Node
  else if String.eqb name "String" then Ok String_
  else Err (ErrForeign ("no such type: " +:+ name)).

Fixpoint resolve (ref : TypeRef) : outcome Type_.t :=
  match ref with
  | NamedRef _ name => MustGetType name
  | WrapRef _ ofType => resolve ofType
  end.

Fixpoint selection (typ : Type_.t) (path : list string) : list (string * Query) :=
  match path with
  | [] => []
  | f :: rest => [(f, mkQuery f None typ (selection typ rest))]
  end.

Definition ParseQuery (path : list string) (typ : Type_.t) : outcome Query :=
  match path with
  | key :: ns :: rest =>
      if String.eqb key "namespace"
      then Ok (mkQuery "namespace" (Some ns) typ (selection typ rest))
      else Err (ErrForeign ("no such field: " +:+ key))
  | _ => Err (ErrForeign "incomplete query")
  end.

Definition Reflect (q : Query) (vars : Variables) : outcome (GoValue * Variables) :=
  match Query_Fields q with
  | (_, mkQuery _ (Some ns) _ _) :: _ => Ok (VStruct [], <["ns" := VString ns]> vars)
  | _ => Err (ErrForeign "nothing to reflect")
  end.

Definition pod (name : string) : GoValue := VStruct [("Name", VString name)].

Definition service (zero : GoValue) (vars : Variables) : outcome GoValue :=
  match vars !! "ns" with
  | Some (VString "ns1") =>
      Ok (VStruct [("Namespace", VSlice [VStruct [("Pods", VSlice [pod "p1"; pod "p2"])]])])
  | _ => Err (ErrForeign "namespace not found")
  end.

Definition client : CtrlClient.t :=
  CtrlClient.mk (Client.mk service)
    (Schema.mk "Query" MustGetType resolve ParseQuery Reflect).

(** Runs a computation from the empty store and keeps its outcome. *)
Definition run {A} (m : M A) : option (outcome A) := fst <$> m [].

(** The engine on the fixture's runtime and packages. *)
Definition lister (cl : CtrlClient.t) (queryStr : Slice) (argumentName : string)
  : M (list string) :=
  ListArguments growcap Plural ToCamel Sprintf_f cl queryStr argumentName.

Definition engine (cl : CtrlClient.t) (fuel : nat)
    (ctx : AutoCompleteContext.t) (root : Type_.t) : M (list string) :=
  completeQuery growcap Plural ToCamel Sprintf_f cl fuel ctx root.

Definition request (cl : CtrlClient.t) (namespace : string)
    (completeLeaves : bool) : M (list string) :=
  CompleteQuery growcap Plural ToCamel Sprintf_f cl namespace completeLeaves.

(** The root context of a request on namespace [ns1], and the store that
    holds its query path. *)
Definition root_ctx (completeLeaves : bool) : AutoCompleteContext.t :=
  AutoCompleteContext.mk 6 ∅ completeLeaves (mkSlice 0 2 2).

Definition root_heap : Heap := [["namespace"; "ns1"]].

(** A type whose only field leads to another object. *)
Definition Holder : Type_.t :=
  Type_.mk ObjectKind "Holder" [Field.mk "pod" (NamedRef ObjectKind "Pod") []].

(** A type that declares an object field before its leaves, and a list of
    objects between them. *)
Definition Mixed : Type_.t :=
  Type_.mk ObjectKind "Mixed"
    [Field.mk "pod" (NamedRef ObjectKind "Pod") [];
     Field.mk "name" (NamedRef ScalarKind "String") [];
     Field.mk "pods" (WrapRef ListKind (NamedRef ObjectKind "Pod")) [];
     Field.mk "kind" (NamedRef ScalarKind "String") [];
     Field.mk "label" (NamedRef ScalarKind "String") []].

(** A response that lists three namespaces, and the query it answers. *)
Definition namespaces : GoValue :=
  VStruct [("Namespace",
            VSlice [VStruct [("Name", VString "ns-a")];
                    VStruct [("Name", VString "ns-b")];
                    VStruct [("Name", VString "other")]])].

Definition namespaces_query : Query :=
  mkQuery "namespace" None QueryRoot [("name", mkQuery "name" None String_ [])].

(** A schema nine objects deep: each level has one field, [next], to the
    level below; the last level has one scalar field. *)
Definition level_name (i : nat) : string :=
  if (i =? 0)%nat then "Namespace" else "Level" +:+ pretty i.

Definition level (i : nat) : Type_.t :=
  Type_.mk ObjectKind (level_name i)
    (if (i <? 9)%nat
     then [Field.mk "next" (NamedRef ObjectKind (level_name (S i))) []]
     else [Field.mk "name" (NamedRef ScalarKind "String") []]).

Definition deep_MustGetType (name : string) : outcome Type_.t :=
  if String.eqb name "String" then Ok String_
  else
    match list_find (fun i => name = level_name i) (seq 0 10) with
    | Some (_, i) => Ok (level i)
    | None => Err (ErrForeign ("no such type: " +:+ name))
    end.

Fixpoint deep_resolve (ref : TypeRef) : outcome Type_.t :=
  match ref with
  | NamedRef _ name => deep_MustGetType name
  | WrapRef _ ofType => deep_resolve ofType
  end.

Definition deep_client : CtrlClient.t :=
  CtrlClient.mk (Client.mk service)
    (Schema.mk "Query" deep_MustGetType deep_resolve ParseQuery Reflect).

End Fixture.

(** ** Recursive steps

    [enters ctx next subType]: [next] is the context that a call on [ctx]
    hands to its recursive call on [subType]. *)
Definition enters (ctx next : AutoCompleteContext.t) (subType : Type_.t) : Prop :=
  Visited ctx (Type_.Name subType) = false /\
  visitedTypes next =
    ((fun _ : bool => true) <$> visitedTypes ctx) ∪ {[ Type_.Name subType := true ]} /\
  maxRecurLevel next = int_wrap (maxRecurLevel ctx - 1) /\
  completeLeaves next = completeLeaves ctx.

(** [descends ctx0 path ctx]: [ctx] is reached from [ctx0] by recursive
    steps that entered the types named in [path], in this order. *)
Inductive descends (ctx0 : AutoCompleteContext.t)
  : list string -> AutoCompleteContext.t -> Prop :=
  | descends_here : descends ctx0 [] ctx0
  | descends_step path ctx next subType :
      descends ctx0 path ctx ->
      enters ctx next subType ->
      descends ctx0 (path ++ [Type_.Name subType]) next.

(** A completion lies under a field when it is the field's name, a slash
    and a rest. *)
Definition under (name completion : string) : Prop :=
  exists rest, completion = name +:+ "/" +:+ rest.

(** [gathered step l h ys h']: running [step] on the items of [l] in turn,
    each on the store that the one before it left, from [h], ends well for
    every item; [ys] are the results, item by item, and [h'] is the store
    at the end. *)
Inductive gathered {A B : Type} (step : A -> M B)
  : list A -> Heap -> list B -> Heap -> Prop :=
  | gathered_nil h : gathered step [] h [] h
  | gathered_cons x l h y h1 ys h' :
      step x h = Some (Ok y, h1) ->
      gathered step l h1 ys h' ->
      gathered step (x :: l) h (y :: ys) h'.

(** The values of a Go [int]. *)
Definition int_range (z : Z) : Prop := (- 2 ^ 63 <= z < 2 ^ 63)%Z.

(** The number of decrements, wrap-around included, that take the budget of
    a context to zero. *)
Definition levels_left (ctx : AutoCompleteContext.t) : nat :=
  Z.to_nat (maxRecurLevel ctx mod 2 ^ 64).

(** ** Counting *)

Fixpoint binomial (n k : nat) : nat :=
  match n, k with
  | _, O => 1
  | O, S _ => 0
  | S n', S k' => binomial n' k' + binomial n' k
  end.

(** The number of orderings of the subsets of sizes 1 to n-1 of n names. *)
Definition partial_orderings (n : nat) : nat :=
  sum_list (map (fun k => binomial n k * fact k) (seq 1 (n - 1))).

(** A slice header holds [xs] in a store: its array is allocated, at least
    as long as the capacity, and starts with [xs]. *)
Definition holds (h : Heap) (s : Slice) (xs : list string) : Prop :=
  (s_len s <= s_cap s)%nat /\
  exists arr, h !! s_array s = Some arr /\
              (s_cap s <= length arr)%nat /\ take (s_len s) arr = xs.

(** ** More cases

    Inputs on which the further properties are run. *)
Module Cases.

(** A client whose schema knows no type at all. *)
Definition bare_client : CtrlClient.t :=
  CtrlClient.mk (Client.mk Fixture.service)
    (Schema.mk "Query"
       (fun name => Err (ErrForeign ("no such type: " +:+ name)))
       Fixture.resolve Fixture.ParseQuery Fixture.Reflect).

(** The field of the query root that takes the namespace as its argument,
    and a field that takes the name of a pod. *)
Definition namespace_field : Field.t :=
  Field.mk "namespace" (WrapRef ListKind (NamedRef ObjectKind "Namespace"))
    [Argument.mk "ns" (NamedRef ScalarKind "String")].

Definition pod_field : Field.t :=
  Field.mk "pod" (NamedRef ObjectKind "Pod")
    [Argument.mk "name" (NamedRef ScalarKind "String")].

(** A context one level under the root, whose path has a spare cell, and
    the store that holds it. *)
Definition pods_ctx : AutoCompleteContext.t :=
  AutoCompleteContext.mk 5 {[ "Namespace" := true ]} false (mkSlice 0 3 4).

Definition pods_heap : Heap := [["namespace"; "ns1"; "pod"; ""]].

(** A query slice in the documented layout, with the prefix [p]. *)
Definition prefixed : Slice := mkSlice 0 4 4.
Definition prefixed_heap : Heap := [["namespace"; "ns1"; "pods"; "p"]].

(** A type one of whose fields has a type that the schema lacks. *)
Definition Broken : Type_.t :=
  Type_.mk ObjectKind "Broken"
    [Field.mk "name" (NamedRef ScalarKind "String") [];
     Field.mk "ghost" (NamedRef ObjectKind "Ghost") [];
     Field.mk "action" (NamedRef ScalarKind "String") []].

(** The root context with one level of budget left. *)
Definition last_ctx : AutoCompleteContext.t :=
  AutoCompleteContext.mk 1 ∅ false (mkSlice 0 2 2).

End Cases.

(** * Properties *)

(** ** The combination generator *)

(** Lists of lists. *)
Lemma flat_map_length_const {A B} (f : A -> list B) (l : list A) (n : nat) :
  (forall x, In x l -> length (f x) = n) -> length (flat_map f l) = (length l * n)%nat.
Proof.
  induction l as [|x l IH]; intros H; simpl; [reflexivity|].
  rewrite length_app, (H x) by (left; reflexivity).
  rewrite IH by (intros y Hy; apply H; right; exact Hy). lia.
Qed.

Lemma elem_of_flat_map {A B} (f : A -> list B) (l : list A) (y : B) :
  y ∈ flat_map f l <-> exists x, x ∈ l /\ y ∈ f x.
Proof.
  rewrite list_elem_of_In, in_flat_map.
  split; intros (x & ? & ?); exists x; by rewrite ?list_elem_of_In in *.
Qed.

(** [choose k l] lists the k-element sublists of [l], C(n,k) of them. *)
Lemma choose_length {A} (k : nat) (l : list A) :
  length (Comb.choose k l) = binomial (length l) k.
Proof.
  revert k; induction l as [|x l IH]; intros [|k]; simpl; try done.
  by rewrite length_app, length_map, !IH.
Qed.

Lemma elem_of_choose {A} (k : nat) (l c : list A) :
  c ∈ Comb.choose k l <-> c `sublist_of` l /\ length c = k.
Proof.
  revert k c; induction l as [|x l IH]; intros [|k] c; simpl.
  - rewrite list_elem_of_singleton. split.
    + intros ->. split; [constructor|done].
    + intros [_ Hc]. by apply nil_length_inv.
  - split; [by intros ?%elem_of_nil|].
    intros [Hs Hc]. apply sublist_nil_r in Hs. by subst.
  - rewrite list_elem_of_singleton. split.
    + intros ->. split; [apply sublist_nil_l|done].
    + intros [_ Hc]. by apply nil_length_inv.
  - rewrite elem_of_app, list_elem_of_fmap, !IH. split.
    + intros [(c' & -> & Hc')|[Hs Hc]].
      * apply IH in Hc' as [Hs Hc]. split; [by constructor|simpl; lia].
      * split; [by constructor|done].
    + intros [Hs Hc]. apply sublist_cons_r in Hs as [Hs|(c' & -> & Hs)].
      * by right.
      * left. exists c'. split; [done|]. apply IH. simpl in Hc. split; [done|lia].
Qed.

(** One pass of the permutator visits exactly the orderings of the slice,
    k! of them. *)
Lemma rotate_right_perm {A} (j : nat) (l : list A) : Prmt.rotate_right j l ≡ₚ l.
Proof.
  unfold Prmt.rotate_right.
  rewrite (comm app). by rewrite take_drop.
Qed.

Lemma rounds_of_length {A} (n : nat) (l : list A) :
  length (Prmt.rounds_of n l) = fact n.
Proof.
  revert l; induction n as [|m IH]; intros l; [done|].
  cbn [Prmt.rounds_of].
  rewrite (flat_map_length_const _ _ (fact m)).
  - rewrite length_seq. reflexivity.
  - intros j _. by rewrite length_map, IH.
Qed.

Lemma elem_of_rounds_of {A} (n : nat) (l l' : list A) :
  (n <= length l)%nat ->
  l' ∈ Prmt.rounds_of n l <-> exists p, l' = p ++ drop n l /\ p ≡ₚ take n l.
Proof.
  revert l l'; induction n as [|m IH]; intros l l' Hn.
  - simpl. rewrite list_elem_of_singleton, drop_0, take_0. split.
    + intros ->. by exists [].
    + intros (p & -> & Hp). by apply Permutation_nil_r in Hp as ->.
  - cbn [Prmt.rounds_of]. rewrite elem_of_flat_map.
    set (t := take (S m) l).
    assert (Ht : length t = S m) by (unfold t; rewrite length_take; lia).
    split.
    + intros (j & _ & Hl').
      apply list_elem_of_fmap in Hl' as (p' & -> & Hp').
      pose proof (rotate_right_perm j t) as Hr.
      set (r := Prmt.rotate_right j t) in *.
      assert (Hlr : length r = S m) by (by rewrite Hr).
      apply IH in Hp' as (q & -> & Hq); [|rewrite length_take; lia].
      rewrite take_take, Nat.min_id in Hq.
      rewrite (drop_ge (take m r)), app_nil_r by (rewrite length_take; lia).
      exists (q ++ drop m r). split; [by rewrite <-(assoc app)|].
      by rewrite Hq, take_drop.
    + intros (p & -> & Hp).
      assert (Hlp : length p = S m) by (by rewrite Hp).
      induction p as [|x q IHq] using rev_ind; [done|]. clear IHq.
      assert (Hx : x ∈ t).
      { rewrite <-Hp. apply elem_of_app. right. by apply list_elem_of_singleton. }
      apply list_elem_of_split in Hx as (a & b & Hab).
      assert (Hlab : (length a + S (length b) = S m)%nat).
      { rewrite <-Ht, Hab, length_app. done. }
      exists (length b). split; [apply elem_of_seq; lia|].
      assert (Hr : Prmt.rotate_right (length b) t = b ++ a ++ [x]).
      { unfold Prmt.rotate_right. rewrite Ht.
        replace (S m - length b)%nat with (length (a ++ [x])) by (rewrite length_app; simpl; lia).
        rewrite Hab. rewrite (cons_middle x a b), (assoc app).
        by rewrite drop_app_length, take_app_length, (assoc app). }
      rewrite Hr.
      assert (Hm : m = length (b ++ a)) by (rewrite length_app; lia).
      assert (Hd : drop m (b ++ a ++ [x]) = [x]).
      { rewrite (assoc app b a [x]), Hm. apply drop_app_length. }
      assert (Htk : take m (b ++ a ++ [x]) = b ++ a).
      { rewrite (assoc app b a [x]), Hm. apply take_app_length. }
      rewrite Hd, Htk.
      apply list_elem_of_fmap. exists q. split; [by rewrite <-(assoc app)|].
      apply IH; [lia|].
      exists q. rewrite drop_ge, app_nil_r, take_ge by lia. split; [done|].
      apply (Permutation_app_inv_r [x]).
      rewrite Hp, Hab, (comm app b a), <-(assoc app).
      f_equiv. apply Permutation_cons_append.
Qed.

Lemma elem_of_rounds {A} (l l' : list A) : l' ∈ Prmt.rounds l <-> l ≡ₚ l'.
Proof.
  unfold Prmt.rounds. rewrite elem_of_rounds_of by done.
  rewrite drop_all, firstn_all. split.
  - intros (p & -> & Hp). by rewrite app_nil_r.
  - intros Hp. exists l'. by rewrite app_nil_r.
Qed.

Lemma rounds_length {A} (l : list A) : length (Prmt.rounds l) = fact (length l).
Proof. apply rounds_of_length. Qed.

Lemma flat_map_length_sum {A B} (f : A -> list B) (l : list A) :
  length (flat_map f l) = sum_list (map (fun x => length (f x)) l).
Proof.
  induction l as [|x l IH]; simpl; [done|]. by rewrite length_app, IH.
Qed.

Lemma fill_length strs indexes : length (fill strs indexes) = length indexes.
Proof. apply length_map. Qed.

(** C3.  For a non-empty sequence of N names [fullPermutation] returns, and
    what it returns holds exactly the orderings of the index combinations of
    the sizes 1 to N-1: a list is a result if and only if it is an ordering
    of the names picked by an increasing selection of between 1 and N-1
    indexes, and there are as many results as the sum over these sizes k of
    C(N,k) * k!.  The full set, of size N, and the empty set are left out.
    For ["a"; "b"; "c"] the results are the three single names and the six
    orderings of two names, and no ordering of all three. *)
Theorem fullPermutation_subsets (strs : list string) :
  strs <> [] ->
  exists results,
    fullPermutation strs = Ok results /\
    (forall r, r ∈ results <->
       exists indexes,
         indexes `sublist_of` seq 0 (length strs) /\
         (1 <= length indexes <= length strs - 1)%nat /\
         fill strs indexes ≡ₚ r) /\
    length results = partial_orderings (length strs) /\
    (strs = ["a"; "b"; "c"] ->
     results = [["a"]; ["b"]; ["c"];
                ["a"; "b"]; ["b"; "a"]; ["a"; "c"]; ["c"; "a"];
                ["b"; "c"]; ["c"; "b"]]).
Proof.
  intros Hne. destruct strs as [|s tail]; [done|].
  eexists. split; [reflexivity|].
  set (strs := s :: tail).
  change (length strs) with (S (length tail)).
  replace (S (length tail) - 1)%nat with (length tail) by lia.
  split; [|split].
  - intros r. rewrite elem_of_flat_map. split.
    + intros (i & Hi & Hr). apply elem_of_seq in Hi.
      apply elem_of_flat_map in Hr as (indexes & Hc & Hr).
      apply elem_of_choose in Hc as [Hs Hk]. apply elem_of_rounds in Hr.
      exists indexes. split; [done|]. split; [lia|done].
    + intros (indexes & Hs & Hk & Hr).
      exists (length indexes - 1)%nat. split; [apply elem_of_seq; lia|].
      apply elem_of_flat_map. exists indexes. split.
      * apply elem_of_choose. split; [done|lia].
      * by apply elem_of_rounds.
  - rewrite flat_map_length_sum. unfold partial_orderings.
    replace (S (length tail) - 1)%nat with (length tail) by lia.
    rewrite <-(fmap_S_seq 0), <-list_fmap_compose.
    f_equal. apply map_ext_in. intros i _. unfold compose.
    rewrite (flat_map_length_const _ _ (fact (i + 1))).
    + unfold Comb.rounds. rewrite choose_length, length_seq.
      by replace (i + 1)%nat with (S i) by lia.
    + intros indexes Hin. apply list_elem_of_In, elem_of_choose in Hin as [_ Hk].
      by rewrite rounds_length, fill_length, Hk.
  - intros [= -> ->]. reflexivity.
Qed.

Lemma fullPermutation_subsets_witness :
  ["a"; "b"; "c"] <> [] /\
  exists results,
    fullPermutation ["a"; "b"; "c"] = Ok results /\ length results = 9%nat.
Proof.
  assert (Hne : ["a"; "b"; "c"] <> []) by discriminate.
  split; [exact Hne|].
  destruct (fullPermutation_subsets ["a"; "b"; "c"] Hne) as (results & Hr & _ & Hl & _).
  exists results. split; [exact Hr|exact Hl].
Defined.

(** The order in which a pass of the permutator visits three elements. *)
Example Prmt_rounds_123 :
  Prmt.rounds [1; 2; 3]%nat =
  [[1; 2; 3]; [2; 1; 3]; [3; 1; 2]; [1; 3; 2]; [2; 3; 1]; [3; 2; 1]]%nat.
Proof. reflexivity. Qed.



(** ** Extraction of leaf values *)

Section ListArgumentsFacts.
Variable ToCamel : string -> string.
Variable Sprintf_f : Z -> string.
Local Abbreviation listArguments := (listArguments ToCamel Sprintf_f).

(** The struct case and the slice case of [listArguments], by equations. *)
Lemma listArguments_struct fields r startWith :
  listArguments (VStruct fields) (Some r) startWith =
  match FieldByName (ToCamel (Query_Name r)) fields with
  | Some field => listArguments field (first_child r) startWith
  | None => Err (ErrCannotFindField (Query_Name r) (VStruct fields))
  end.
Proof.
  cbn [listArguments].
  generalize (VStruct fields). intros object.
  induction fields as [|[name field] fs IH]; [done|].
  cbn [FieldByName]. destruct (String.eqb name _); [|exact IH].
  unfold first_child. by destruct (Query_Fields r) as [|[? ?] ?].
Qed.

Lemma listArguments_slice_acc vs resource startWith outs acc :
  Forall2 (fun v out => listArguments v resource startWith = Ok out) vs outs ->
  (fix loop (vs : list GoValue) (slice : list string) : outcome (list string) :=
     match vs with
     | [] => Ok slice
     | v :: vs' =>
         match listArguments v resource startWith with
         | Ok arguments => loop vs' (slice ++ arguments)
         | failure => failure
         end
     end) vs acc = Ok (acc ++ concat outs).
Proof.
  intros H. revert acc. induction H as [|v out vs outs Hv _ IH]; intros acc.
  - by rewrite app_nil_r.
  - rewrite Hv, IH. simpl. by rewrite (assoc app).
Qed.

Lemma listArguments_slice vs resource startWith outs :
  Forall2 (fun v out => listArguments v resource startWith = Ok out) vs outs ->
  listArguments (VSlice vs) resource startWith = Ok (concat outs).
Proof. intros H. cbn [listArguments]. by rewrite (listArguments_slice_acc _ _ _ outs). Qed.

End ListArgumentsFacts.

(** C7.  [listArguments] walks the decoded response: a pointer is
    dereferenced, a struct is entered at the field that the query node
    names, the results for the elements of a slice are concatenated in the
    order of the elements, and a scalar leaf yields its string form if that
    starts with the prefix and nothing otherwise.  Over the response that
    holds ns-a, ns-b and other, the prefix ns- yields exactly ns-a and
    ns-b. *)
Theorem listArguments_walk (ToCamel : string -> string) (Sprintf_f : Z -> string) :
  (forall object val startWith,
     scalar_string Sprintf_f object = Ok val ->
     listArguments ToCamel Sprintf_f object None startWith =
     Ok (if String.prefix startWith val then [val] else [])) /\
  (forall elem resource startWith,
     listArguments ToCamel Sprintf_f (VPtr (Some elem)) resource startWith =
     listArguments ToCamel Sprintf_f elem resource startWith) /\
  (forall fields r startWith field,
     FieldByName (ToCamel (Query_Name r)) fields = Some field ->
     listArguments ToCamel Sprintf_f (VStruct fields) (Some r) startWith =
     listArguments ToCamel Sprintf_f field (first_child r) startWith) /\
  (forall elems resource startWith outs,
     Forall2 (fun v out =>
                listArguments ToCamel Sprintf_f v resource startWith = Ok out)
             elems outs ->
     listArguments ToCamel Sprintf_f (VSlice elems) resource startWith =
     Ok (concat outs)) /\
  listArguments Fixture.ToCamel Fixture.Sprintf_f
    Fixture.namespaces (Some Fixture.namespaces_query) "ns-" = Ok ["ns-a"; "ns-b"].
Proof.
  split; [|split; [|split; [|split]]].
  - intros object val startWith Hval.
    destruct object; try discriminate Hval; cbn in Hval |- *;
      injection Hval as <-; by destruct (String.prefix _ _).
  - reflexivity.
  - intros fields r startWith field Hfield.
    by rewrite listArguments_struct, Hfield.
  - intros elems resource startWith outs. apply listArguments_slice.
  - reflexivity.
Qed.

Lemma listArguments_walk_witness :
  listArguments Fixture.ToCamel Fixture.Sprintf_f
    (VSlice [VString "ns-a"; VString "other"]) None "ns-" = Ok ["ns-a"].
Proof.
  destruct (listArguments_walk Fixture.ToCamel Fixture.Sprintf_f)
    as (Hscalar & _ & _ & Hslice & _).
  apply (Hslice [VString "ns-a"; VString "other"] None "ns-" [["ns-a"]; []]).
  constructor; [|constructor; [|constructor]].
  - apply (Hscalar (VString "ns-a") "ns-a" "ns-"). reflexivity.
  - apply (Hscalar (VString "other") "other" "ns-"). reflexivity.
Defined.

(** ** Computations over the store *)

(** Two stores into the last two cells of a prefix of an array. *)
Lemma take_two_stores (arr : list string) (n : nat) (x y : string) :
  (2 <= n <= length arr)%nat ->
  let arr' := <[(n - 1)%nat := y]> (<[(n - 2)%nat := x]> arr) in
  take n arr' = take (n - 2) arr ++ [x; y] /\ nth (n - 1) arr' "" = y.
Proof.
  intros Hn.
  pose proof (take_drop (n - 2) arr) as Harr.
  assert (Hpre : length (take (n - 2) arr) = (n - 2)%nat) by (rewrite length_take; lia).
  assert (Hpost : length (drop (n - 2) arr) = (length arr - (n - 2))%nat) by apply length_drop.
  destruct (drop (n - 2) arr) as [|a [|b post]]; simpl in Hpost; try lia.
  set (pre := take (n - 2) arr) in *.
  rewrite <-Harr. cbv zeta.
  rewrite (insert_app_r_alt pre _ (n - 2)) by lia.
  rewrite (insert_app_r_alt pre _ (n - 1)) by lia.
  replace (n - 2 - length pre)%nat with 0%nat by lia.
  replace (n - 1 - length pre)%nat with 1%nat by lia.
  change (<[1%nat:=y]> (<[0%nat:=x]> (a :: b :: post))) with (x :: y :: post). split.
  - replace (pre ++ x :: y :: post) with ((pre ++ [x; y]) ++ post)
      by (by rewrite <-(assoc app)).
    apply take_app_length'. rewrite length_app. simpl. lia.
  - rewrite app_nth2 by lia. by replace (n - 1 - length pre)%nat with 1%nat by lia.
Qed.


(** Steps of a computation. *)
Lemma bind_run {A B} (m : M A) (k : A -> M B) h a h' :
  m h = Some (Ok a, h') -> bind m k h = k a h'.
Proof. unfold bind. by intros ->. Qed.

Lemma bind_lift {A B} (o : outcome A) (k : A -> M B) h :
  bind (lift o) k h =
  match o with
  | Ok a => k a h
  | Err e => Some (Err e, h)
  | Panic p => Some (Panic p, h)
  end.
Proof. unfold bind, lift. by destruct o. Qed.

Lemma slice_to_run s hi h :
  (0 <= hi <= Z.of_nat (s_cap s))%Z ->
  slice_to s hi h = Some (Ok (mkSlice (s_array s) (Z.to_nat hi) (s_cap s)), h).
Proof. intros Hhi. unfold slice_to. by rewrite decide_True. Qed.

Lemma elements_run s h arr :
  h !! s_array s = Some arr -> elements s h = Some (Ok (take (s_len s) arr), h).
Proof. intros Harr. unfold elements, bind, load, ret. by rewrite Harr. Qed.

Lemma index_run s i h arr :
  h !! s_array s = Some arr -> (0 <= i < Z.of_nat (s_len s))%Z ->
  index s i h = Some (Ok (nth (Z.to_nat i) arr ""), h).
Proof.
  intros Harr Hi. unfold index. rewrite decide_True by done.
  unfold bind, load, ret. by rewrite Harr.
Qed.

Lemma set_index_run s i v h :
  (0 <= i < Z.of_nat (s_len s))%Z ->
  set_index s i v h =
  Some (Ok tt, alter (fun xs => <[Z.to_nat i := v]> xs) (s_array s) h).
Proof. intros Hi. unfold set_index. by rewrite decide_True. Qed.

(** Computations that end, and computations that agree. *)
Lemma bind_some {A B} (m : M A) (k : A -> M B) h :
  is_Some (m h) ->
  (forall a h', m h = Some (Ok a, h') -> is_Some (k a h')) ->
  is_Some (bind m k h).
Proof.
  intros [[[a| |] h'] Hm] Hk; unfold bind; rewrite Hm; eauto.
Qed.

Lemma bind_ext {A B} (m : M A) (k k' : A -> M B) h :
  (forall a h', m h = Some (Ok a, h') -> k a h' = k' a h') ->
  bind m k h = bind m k' h.
Proof.
  intros Hk. unfold bind. destruct (m h) as [[[a| |] h']|]; try done. by apply Hk.
Qed.

Lemma for_each_ext {A S} (body body' : A -> S -> M S) (l : list A) (s : S) h :
  (forall x s h, x ∈ l -> body x s h = body' x s h) ->
  for_each body l s h = for_each body' l s h.
Proof.
  revert s h; induction l as [|x l IH]; intros s h Hb; [done|].
  cbn [for_each]. unfold bind. rewrite Hb by left.
  destruct (body' x s h) as [[[s'| |] h']|]; try done.
  apply IH. intros. apply Hb. by right.
Qed.

Lemma for_each_some {A S} (body : A -> S -> M S) (l : list A) (s : S) h :
  (forall x s h, x ∈ l -> is_Some (body x s h)) ->
  is_Some (for_each body l s h).
Proof.
  revert s h; induction l as [|x l IH]; intros s h Hb; [by eexists|].
  cbn [for_each]. apply bind_some; [apply Hb; left|].
  intros. apply IH. intros. apply Hb. by right.
Qed.

(** Appending strings is associative. *)
Lemma string_app_assoc (a b c : string) : (a +:+ b) +:+ c = a +:+ b +:+ c.
Proof.
  induction a as [|x a IH]; [reflexivity|].
  change (String x ((a +:+ b) +:+ c) = String x (a +:+ b +:+ c)). by rewrite IH.
Qed.

(** An invariant of the loop state holds when the loop ends well. *)
Lemma for_each_inv {A S} (P : S -> Prop) (body : A -> S -> M S) l s h s' h' :
  P s ->
  (forall x s h s' h', P s -> body x s h = Some (Ok s', h') -> P s') ->
  for_each body l s h = Some (Ok s', h') -> P s'.
Proof.
  intros Hs Hb. revert s h Hs. induction l as [|x l IH]; intros s h Hs.
  - by intros [= <- <-].
  - cbn [for_each]. unfold bind.
    destruct (body x s h) as [[[s1| |] h1]|] eqn:Hx; try done.
    apply IH. by eapply Hb.
Qed.

Lemma bind_assoc {A B C} (m : M A) (k : A -> M B) (k' : B -> M C) h :
  bind (bind m k) k' h = bind m (fun a => bind (k a) k') h.
Proof. unfold bind. by destruct (m h) as [[[a| |] h1]|]. Qed.

(** A loop whose body only appends to its state may start from the empty
    state. *)
Lemma for_each_acc {A} (body : A -> list string -> M (list string)) :
  (forall x t h, body x t h = (let! g := body x [] in ret (t ++ g)) h) ->
  forall l t h,
    for_each body l t h = (let! g := for_each body l [] in ret (t ++ g)) h.
Proof.
  intros Hbody l. induction l as [|x l IH]; intros t h.
  - cbn. unfold bind, ret. by rewrite app_nil_r.
  - cbn [for_each]. unfold bind at 1 2 3. rewrite (Hbody x t h). unfold bind at 1.
    destruct (body x [] h) as [[[g| |] h1]|]; [|done..].
    unfold ret at 1. rewrite (IH (t ++ g) h1), (IH g h1). unfold bind.
    destruct (for_each body l [] h1) as [[[g'| |] h2]|]; [|done..].
    unfold ret. by rewrite <-(assoc app).
Qed.

(** Such a loop ends well exactly when every round does, and appends what
    the rounds give, in their order. *)
Lemma gathered_args {A B} (step : A -> M B) (f : A -> B -> list string) l t h t' h' :
  for_each (fun x t => let! y := step x in ret (t ++ f x y)) l t h = Some (Ok t', h') <->
  exists ys, gathered step l h ys h' /\ t' = t ++ concat (zip_with f l ys).
Proof.
  revert t h. induction l as [|x l IH]; intros t h.
  - cbn. unfold ret. split.
    + intros [= <- <-]. exists []. split; [constructor|]. by rewrite app_nil_r.
    + intros (ys & Hg & ->). inversion Hg; subst. cbn. by rewrite app_nil_r.
  - cbn [for_each]. unfold bind at 1 2.
    split.
    + destruct (step x h) as [[[y| |] h1]|] eqn:Hx; [|done..].
      unfold ret at 1. intros (ys & Hg & ->)%IH.
      exists (y :: ys). split; [by econstructor|]. cbn. by rewrite <-(assoc app).
    + intros (ys & Hg & ->). inversion Hg as [|? ? ? y h1 ys' ? Hx Hrest]; subst.
      rewrite Hx. unfold ret at 1. apply IH. exists ys'. split; [done|].
      cbn. by rewrite <-(assoc app).
Qed.

(** ** The argument lister *)

Section ListArgumentsRun.
Variable growcap : nat -> nat.
Variable Plural ToCamel : string -> string.
Variable Sprintf_f : Z -> string.
Variable c : CtrlClient.t.

Lemma append_in_place s v h :
  (s_len s < s_cap s)%nat ->
  append growcap s v h =
  Some (Ok (mkSlice (s_array s) (s_len s + 1) (s_cap s)),
        alter (fun xs => <[s_len s := v]> xs) (s_array s) h).
Proof. intros Hlt. unfold append. by rewrite decide_True. Qed.

(** A call of [ListArguments] on a query slice of at least two segments:
    the path handed to the schema is the slice without its last segment,
    with the segment before the last pluralized and [argumentName] appended;
    the prefix handed to [listArguments] is read from the last cell of the
    slice after [append] has written [argumentName] there. *)
Lemma ListArguments_run (queryStr : Slice) (argumentName : string) (h : Heap)
    (arr : list string) :
  h !! s_array queryStr = Some arr ->
  (2 <= s_len queryStr <= s_cap queryStr)%nat ->
  (s_cap queryStr <= length arr)%nat ->
  fst <$> ListArguments growcap Plural ToCamel Sprintf_f c queryStr argumentName h =
  Some (list_request ToCamel Sprintf_f c
          (take (s_len queryStr - 2) arr ++
             [Plural (nth (s_len queryStr - 2) arr ""); argumentName])
          argumentName).
Proof.
  intros Harr Hn Hcap. destruct queryStr as [a n cap]; simpl in *.
  unfold ListArguments, list_request.
  rewrite bind_lift. destruct (GetQueryType c) as [queryType| |]; [|done..].
  cbn [and_then].
  erewrite bind_run by (apply slice_to_run; simpl; lia).
  cbn [s_array s_len s_cap].
  replace (Z.to_nat (Z.of_nat n - 1)) with (n - 1)%nat by lia.
  erewrite bind_run by (apply (index_run _ _ _ arr); simpl; [done|lia]).
  erewrite bind_run by (apply set_index_run; simpl; lia).
  erewrite bind_run by (apply append_in_place; simpl; lia).
  cbn [s_array s_len s_cap].
  replace (Z.to_nat (Z.of_nat (n - 1) - 1)) with (n - 2)%nat by lia.
  replace (n - 1 + 1)%nat with n by lia.
  set (arr' := <[(n - 1)%nat := argumentName]>
                 (<[(n - 2)%nat := Plural (nth (n - 2) arr "")]> arr)).
  set (h' := alter _ a (alter _ a h)).
  assert (Harr' : h' !! a = Some arr').
  { unfold h'. by rewrite !list_lookup_alter_eq, Harr. }
  destruct (take_two_stores arr n (Plural (nth (n - 2) arr "")) argumentName)
    as [Htake Hnth]; [lia|]. cbv zeta in Htake, Hnth. fold arr' in Htake, Hnth.
  erewrite bind_run by (by apply (elements_run _ _ arr')).
  cbn [s_len]. rewrite Htake.
  rewrite bind_lift.
  destruct (Schema.ParseQuery _ _ _) as [query| |]; [|done..]. cbn [and_then].
  rewrite bind_lift.
  destruct (Schema.Reflect _ _ _) as [[queryStruct variables]| |]; [|done..].
  cbn [and_then fst snd]. rewrite bind_lift.
  destruct (Client.Query _ _ _) as [queryValue| |]; [|done..].
  erewrite bind_run by (apply (index_run _ _ _ arr'); simpl; [done|lia]).
  unfold lift. cbn [fmap option_fmap option_map fst].
  replace (Z.to_nat (Z.of_nat n - 1)) with (n - 1)%nat by lia.
  by rewrite Hnth.
Qed.

(** C4, as amended.  A failure of a step of [ListArguments] (parsing the
    path, building the request shape, executing the query, extracting the
    leaf values) ends the call, and the call returns the error of that step
    as it is: no path and no field name is attached to it. *)
Theorem ListArguments_failure_unchanged (queryStr : Slice) (argumentName : string)
    (h : Heap) (arr : list string) (e : error) :
  h !! s_array queryStr = Some arr ->
  (2 <= s_len queryStr <= s_cap queryStr)%nat ->
  (s_cap queryStr <= length arr)%nat ->
  request_fails ToCamel Sprintf_f c
    (take (s_len queryStr - 2) arr ++
       [Plural (nth (s_len queryStr - 2) arr ""); argumentName])
    argumentName e ->
  fst <$> ListArguments growcap Plural ToCamel Sprintf_f c queryStr argumentName h =
  Some (Err e).
Proof.
  intros Harr Hn Hcap Hfail.
  rewrite (ListArguments_run _ _ _ arr) by done. f_equal.
  unfold list_request.
  destruct Hfail as (queryType & -> & Hfail). cbn [and_then].
  destruct Hfail as [->|(query & -> & Hfail)]; [done|]. cbn [and_then].
  cbv zeta in Hfail.
  destruct Hfail as [->|(queryStruct & variables & -> & Hfail)]; [done|].
  cbn [and_then fst snd].
  destruct Hfail as [->|(queryValue & -> & Hfail)]; [done|]. cbn [and_then].
  exact Hfail.
Qed.

End ListArgumentsRun.

(** C1.  On the fixture service, which holds the pods p1 and p2 under ns1,
    [ListArguments] on the path namespace/ns1/pods with an empty prefix and
    the argument name [name] returns no value at all: [append] writes the
    argument name into the cell of the query slice that holds the prefix
    (the slice ends in pods, name afterwards), so the values are filtered by
    the prefix [name].  The same request filtered by the empty prefix yields
    p1 and p2.  Without the cell for the prefix the call pluralizes ns1 and
    fails. *)
Theorem ListArguments_pods_prefix :
  Fixture.run
    (let! queryStr := slice_literal ["namespace"; "ns1"; "pods"; ""] in
     let! arguments :=
       Fixture.lister Fixture.client queryStr "name" in
     let! after := elements queryStr in
     ret (arguments, after)) =
  Some (Ok ([], ["namespace"; "ns1"; "pods"; "name"])) /\
  list_request Fixture.ToCamel Fixture.Sprintf_f Fixture.client
    ["namespace"; "ns1"; "pods"; "name"] "" = Ok ["p1"; "p2"] /\
  Fixture.run
    (let! queryStr := slice_literal ["namespace"; "ns1"; "pods"] in
     Fixture.lister Fixture.client queryStr "name") =
  Some (Err (ErrForeign "namespace not found")).
Proof. repeat split; reflexivity. Qed.

(** C4, as stated, fails: were the path and the field name attached to the
    error that [ListArguments] returns, they could be read back from it; but
    two calls with different paths and different argument names return the
    same error. *)
Lemma ListArguments_error_has_no_origin :
  ~ exists origin : error -> list string * string,
      forall (path : list string) (argumentName : string) (e : error),
        Fixture.run
          (let! queryStr := slice_literal path in
           Fixture.lister Fixture.client queryStr argumentName) =
        Some (Err e) ->
        origin e = (path, argumentName).
Proof.
  intros [origin Horigin].
  pose proof (Horigin ["namespace"; "ns2"; "pods"; ""] "name" _ eq_refl) as H1.
  pose proof (Horigin ["namespace"; "ns3"; "nodes"; ""] "uid" _ eq_refl) as H2.
  rewrite H1 in H2. discriminate H2.
Qed.

Lemma ListArguments_failure_unchanged_witness :
  fst <$> Fixture.lister Fixture.client (mkSlice 0 4 4) "name"
            [["namespace"; "ns2"; "pods"; ""]] =
  Some (Err (ErrForeign "namespace not found")).
Proof.
  apply (ListArguments_failure_unchanged Fixture.growcap Fixture.Plural
           Fixture.ToCamel Fixture.Sprintf_f Fixture.client (mkSlice 0 4 4) "name"
           [["namespace"; "ns2"; "pods"; ""]] ["namespace"; "ns2"; "pods"; ""]).
  - reflexivity.
  - simpl. lia.
  - simpl. lia.
  - exists Fixture.QueryRoot. split; [reflexivity|]. right.
    eexists. split; [reflexivity|]. right.
    eexists _, _. split; [reflexivity|]. left. reflexivity.
Defined.

(** ** The completion engine *)

Section EngineFacts.
Variable growcap : nat -> nat.
Variable Plural ToCamel : string -> string.
Variable Sprintf_f : Z -> string.
Variable c : CtrlClient.t.
Local Abbreviation append := (append growcap).
Local Abbreviation Next := (Next growcap).
Local Abbreviation ListArguments := (ListArguments growcap Plural ToCamel Sprintf_f c).
Local Abbreviation field_step := (field_step growcap Plural ToCamel Sprintf_f c).
Local Abbreviation completeQuery := (completeQuery growcap Plural ToCamel Sprintf_f c).

(** [append] never fails. *)
Lemma append_ok s v h : exists s' h', append s v h = Some (Ok s', h').
Proof.
  unfold append. case_decide; [by eexists _, _|].
  unfold bind, elements, load, ret, alloc. by eexists _, _.
Qed.

Lemma for_each_append_ok segs s h :
  exists s' h', for_each (fun seg query => append query seg) segs s h = Some (Ok s', h').
Proof.
  revert s h; induction segs as [|seg segs IH]; intros s h; [by eexists _, _|].
  cbn [for_each]. destruct (append_ok s seg h) as (s' & h' & Hs).
  rewrite (bind_run _ _ _ _ _ Hs). apply IH.
Qed.

(** [Next] never fails, and what it builds does not depend on the store
    but for the header of the new query path. *)
Lemma Next_run ctx typename fieldName arg h :
  exists query h',
    Next ctx typename fieldName arg h =
    Some (Ok (AutoCompleteContext.mk
                (int_wrap (maxRecurLevel ctx - 1))
                (((fun _ : bool => true) <$> visitedTypes ctx) ∪ {[ typename := true ]})
                (completeLeaves ctx) query), h').
Proof.
  unfold Next, make_empty, slice_literal, alloc, elements, load.
  unfold bind at 1 2 3 4. unfold ret at 1 2. cbn [length].
  destruct (for_each_append_ok
              (take (s_len (AutoCompleteContext.query ctx))
                 (default [] ((h ++ [[]]) !! s_array (AutoCompleteContext.query ctx))))
              (mkSlice (length h) 0 0) (h ++ [[]])) as (q1 & h1 & H1).
  rewrite (bind_run _ _ _ _ _ H1).
  destruct (append_ok q1 fieldName h1) as (q2 & h2 & H2).
  rewrite (bind_run _ _ _ _ _ H2).
  destruct (String.eqb arg "").
  - unfold bind, ret. by eexists _, _.
  - destruct (append_ok q2 arg h2) as (q3 & h3 & H3).
    rewrite (bind_run _ _ _ _ _ H3). unfold ret. by eexists _, _.
Qed.

(** No operation on the store runs out of allowance, and neither does
    [ListArguments]. *)
Lemma slice_to_some s hi h : is_Some (slice_to s hi h).
Proof. unfold slice_to. case_decide; by eexists. Qed.

Lemma index_some s i h : is_Some (index s i h).
Proof. unfold index. case_decide; by eexists. Qed.

Lemma set_index_some s i v h : is_Some (set_index s i v h).
Proof. unfold set_index. case_decide; by eexists. Qed.

Lemma elements_some s h : is_Some (elements s h).
Proof. by eexists. Qed.

Lemma append_some s v h : is_Some (append s v h).
Proof. destruct (append_ok s v h) as (? & ? & ->). by eexists. Qed.

Lemma lift_some {A} (o : outcome A) h : is_Some (lift o h).
Proof. by eexists. Qed.

Lemma ListArguments_some queryStr argumentName h :
  is_Some (ListArguments queryStr argumentName h).
Proof.
  unfold ListArguments.
  repeat first
    [ apply lift_some | apply slice_to_some | apply index_some
    | apply set_index_some | apply elements_some | apply append_some
    | apply bind_some; [|intros ? ? _]
    | match goal with |- is_Some (match ?x with _ => _ end _) => destruct x end ].
Qed.

(** A round of the field loop uses its recursive call only on contexts
    that it enters from [ctx]. *)
Lemma field_step_ext recur recur' ctx field acc h :
  (forall next subType h', enters ctx next subType ->
     recur next subType h' = recur' next subType h') ->
  field_step recur ctx field acc h = field_step recur' ctx field acc h.
Proof.
  intros Hrec. unfold field_step. destruct acc as [trunks leaves].
  rewrite !bind_lift.
  destruct (Schema.resolve _ _) as [subType| |]; [|done..].
  destruct (Visited ctx (Type_.Name subType)) eqn:Hvis; [done|].
  assert (Hnext : forall (B : Type) arg h0 (k k' : AutoCompleteContext.t -> M B),
    (forall next h', enters ctx next subType -> k next h' = k' next h') ->
    bind (Next ctx (Type_.Name subType) (Field.Name field) arg) k h0 =
    bind (Next ctx (Type_.Name subType) (Field.Name field) arg) k' h0).
  { intros B arg h0 k k' Hk.
    destruct (Next_run ctx (Type_.Name subType) (Field.Name field) arg h0)
      as (q & h' & Hn).
    rewrite !(bind_run _ _ _ _ _ Hn). apply Hk. by repeat split. }
  destruct (Field.Args field) as [|arg0 ?].
  - apply Hnext. intros next h' Hent. unfold bind. by rewrite (Hrec _ _ _ Hent).
  - apply bind_ext. intros queryStr h1 _.
    apply bind_ext. intros args h2 _.
    unfold bind at 1 3.
    erewrite for_each_ext; [reflexivity|].
    intros arg trunks' h3 _. apply Hnext.
    intros next h' Hent. unfold bind. by rewrite (Hrec _ _ _ Hent).
Qed.

(** A round of the field loop ends when the recursive calls it makes end. *)
Lemma field_step_some recur ctx field acc h :
  (forall next subType h', enters ctx next subType ->
     is_Some (recur next subType h')) ->
  is_Some (field_step recur ctx field acc h).
Proof.
  intros Hrec. unfold field_step. destruct acc as [trunks leaves].
  rewrite bind_lift.
  destruct (Schema.resolve _ _) as [subType| |]; [|by eexists..].
  destruct (Visited ctx (Type_.Name subType)) eqn:Hvis; [by eexists|].
  assert (Hnext : forall (B : Type) arg h0 (k : AutoCompleteContext.t -> M B),
    (forall next h', enters ctx next subType -> is_Some (k next h')) ->
    is_Some (bind (Next ctx (Type_.Name subType) (Field.Name field) arg) k h0)).
  { intros B arg h0 k Hk.
    destruct (Next_run ctx (Type_.Name subType) (Field.Name field) arg h0)
      as (q & h' & Hn).
    rewrite (bind_run _ _ _ _ _ Hn). apply Hk. by repeat split. }
  destruct (Field.Args field) as [|arg0 ?].
  - apply Hnext. intros next h' Hent.
    apply bind_some; [by apply Hrec|]. intros [|? ?] ? _; by eexists.
  - apply bind_some; [apply append_some|]. intros queryStr h1 _.
    apply bind_some; [apply ListArguments_some|]. intros args h2 _.
    apply bind_some; [|by eexists].
    apply for_each_some. intros arg trunks' h3 _. apply Hnext.
    intros next h' Hent. apply bind_some; [by apply Hrec|]. by eexists.
Qed.

(** Arithmetic of the budget. *)
Lemma int_wrap_range z : int_range (int_wrap z).
Proof.
  unfold int_range, int_wrap.
  change (2 ^ 63)%Z with 9223372036854775808%Z in *.
  change (2 ^ 64)%Z with 18446744073709551616%Z in *.
  Z.div_mod_to_equations. lia.
Qed.

Lemma levels_left_pred ctx next :
  int_range (maxRecurLevel ctx) -> IsComplete ctx = false ->
  maxRecurLevel next = int_wrap (maxRecurLevel ctx - 1) ->
  S (levels_left next) = levels_left ctx.
Proof.
  unfold int_range, IsComplete, levels_left, int_wrap. intros Hr Hc ->.
  apply Z.eqb_neq in Hc.
  set (l := maxRecurLevel ctx) in *.
  change (2 ^ 63)%Z with 9223372036854775808%Z in *.
  change (2 ^ 64)%Z with 18446744073709551616%Z in *.
  Z.div_mod_to_equations. lia.
Qed.

(** An allowance above the number of levels left is enough, and every such
    allowance gives the same result. *)
Lemma completeQuery_fuel n :
  forall fuel ctx root h,
    levels_left ctx = n -> int_range (maxRecurLevel ctx) -> (n < fuel)%nat ->
    completeQuery fuel ctx root h = completeQuery (S n) ctx root h /\
    is_Some (completeQuery (S n) ctx root h).
Proof.
  induction (lt_wf n) as [n _ IH]. intros fuel ctx root h Hn Hr Hf.
  destruct fuel as [|fuel]; [lia|].
  cbn [completeQuery].
  destruct (IsComplete ctx) eqn:Hc; [by split; [|eexists]|].
  assert (Hstep : forall fuel', (n <= fuel')%nat ->
            forall next subType h', enters ctx next subType ->
            completeQuery fuel' next subType h' =
              completeQuery n next subType h' /\
            is_Some (completeQuery n next subType h')).
  { intros fuel' Hf' next subType h' (_ & _ & Hl & _).
    pose proof (levels_left_pred ctx next Hr Hc Hl) as Hp.
    assert (Hrn : int_range (maxRecurLevel next)) by (rewrite Hl; apply int_wrap_range).
    destruct (IH (levels_left next) ltac:(lia) fuel' next subType h' eq_refl Hrn ltac:(lia))
      as [-> Hs].
    destruct (IH (levels_left next) ltac:(lia) n next subType h' eq_refl Hrn ltac:(lia))
      as [-> _].
    done. }
  destruct (Type_.Kind root); try by (split; [|eexists]).
  assert (Hn0 : (fuel >= n)%nat) by lia.
  split.
  - unfold bind.
    rewrite (for_each_ext _ (field_step (completeQuery n) ctx)); [done|].
    intros field acc h0 _. apply field_step_ext.
    intros next subType h' Hent. by apply Hstep.
  - apply bind_some.
    + apply for_each_some. intros field acc h0 _. apply field_step_some.
      intros next subType h' Hent. by apply (Hstep n).
    + intros [trunks leaves] h' _. by eexists.
Qed.


(** C8.  With a remaining budget above zero, [completeQuery] on a type of
    kind Scalar or Enum returns the empty result, and on a type of kind List
    or NonNull it fails with the error that the type is not supported. *)
Theorem completeQuery_leaf_and_modifier fuel ctx root h :
  (0 < maxRecurLevel ctx)%Z ->
  (Type_.Kind root = ScalarKind \/ Type_.Kind root = EnumKind ->
   completeQuery (S fuel) ctx root h = Some (Ok [], h)) /\
  (Type_.Kind root = ListKind \/ Type_.Kind root = NonNullKind ->
   completeQuery (S fuel) ctx root h = Some (Err (ErrTypeNotSupported root), h)).
Proof.
  intros Hl. cbn [completeQuery]. unfold IsComplete.
  rewrite (proj2 (Z.eqb_neq _ _)) by lia.
  split; intros [-> | ->]; reflexivity.
Qed.

(** The budget of zero ends a call at once, with the empty result. *)
Lemma completeQuery_exhausted fuel ctx root h :
  maxRecurLevel ctx = 0%Z -> completeQuery (S fuel) ctx root h = Some (Ok [], h).
Proof.
  intros Hl. cbn [completeQuery]. unfold IsComplete. by rewrite Hl.
Qed.

(** C5.  [CompleteQuery] starts [completeQuery] on a root context whose
    budget is 6; a call whose budget is 0 returns the empty result and no
    error; so on a schema nine objects deep the request returns, without
    error, the one completion of six segments at which the budget ends. *)
Theorem CompleteQuery_budget :
  (forall namespace completeLeaves h namespaceType,
     Schema.MustGetType (CtrlClient.Schema c) NamespaceType = Ok namespaceType ->
     exists ctx h',
       NewAutoCompleteContext namespace 6 completeLeaves h = Some (Ok ctx, h') /\
       maxRecurLevel ctx = 6%Z /\
       forall fuel, (6 < fuel)%nat ->
         CompleteQuery growcap Plural ToCamel Sprintf_f c namespace completeLeaves h =
         completeQuery fuel ctx namespaceType h') /\
  (forall fuel ctx root h,
     maxRecurLevel ctx = 0%Z ->
     completeQuery (S fuel) ctx root h = Some (Ok [], h)) /\
  Fixture.run (Fixture.request Fixture.deep_client "ns1" false) =
  Some (Ok ["next/next/next/next/next/next"]).
Proof.
  split; [|split].
  - intros namespace completeLeaves h namespaceType Htype.
    eexists _, _. split; [reflexivity|]. split; [reflexivity|].
    intros fuel Hfuel. unfold CompleteQuery.
    rewrite bind_lift, Htype.
    erewrite bind_run by reflexivity.
    set (ctx := AutoCompleteContext.mk 6 ∅ completeLeaves _).
    assert (Hr : int_range (maxRecurLevel ctx)) by (by vm_compute).
    destruct (completeQuery_fuel 6 fuel ctx namespaceType (h ++ [[NamespaceKey; namespace]])
                eq_refl Hr Hfuel) as [-> _].
    reflexivity.
  - apply completeQuery_exhausted.
  - reflexivity.
Qed.

(** C9.  On every schema and from every context with a budget D of zero or
    more, [completeQuery] returns, and an allowance of D+1 nested calls (the
    call itself and D levels of recursion under it) is enough on every
    branch: each recursive step enters a context whose budget is one less,
    and a call whose budget is zero makes no recursive step. *)
Theorem completeQuery_terminates ctx root h :
  (0 <= maxRecurLevel ctx < 2 ^ 63)%Z ->
  (exists r,
     forall fuel, (Z.to_nat (maxRecurLevel ctx) < fuel)%nat ->
       completeQuery fuel ctx root h = Some r) /\
  (forall next subType,
     IsComplete ctx = false -> enters ctx next subType ->
     maxRecurLevel next = (maxRecurLevel ctx - 1)%Z).
Proof.
  intros Hl.
  change (2 ^ 63)%Z with 9223372036854775808%Z in Hl.
  split.
  - assert (Hll : levels_left ctx = Z.to_nat (maxRecurLevel ctx)).
    { unfold levels_left. rewrite Z.mod_small; [done|].
      change (2 ^ 64)%Z with 18446744073709551616%Z. lia. }
    assert (Hr : int_range (maxRecurLevel ctx)).
    { unfold int_range. change (2 ^ 63)%Z with 9223372036854775808%Z. lia. }
    destruct (completeQuery_fuel _ (S (levels_left ctx)) ctx root h eq_refl Hr ltac:(lia))
      as [_ [r Hs]].
    exists r. intros fuel Hf.
    destruct (completeQuery_fuel _ fuel ctx root h eq_refl Hr ltac:(lia)) as [-> _].
    exact Hs.
  - intros next subType Hc (_ & _ & -> & _).
    unfold IsComplete in Hc. apply Z.eqb_neq in Hc.
    unfold int_wrap.
    change (2 ^ 63)%Z with 9223372036854775808%Z.
    change (2 ^ 64)%Z with 18446744073709551616%Z.
    rewrite Z.mod_small by lia. lia.
Qed.

(** What a round of the field loop, and the whole loop, add to the trunks
    and to the leaves. *)
Lemma field_step_shape recur ctx field trunks leaves h trunks' leaves' h' :
  field_step recur ctx field (trunks, leaves) h = Some (Ok (trunks', leaves'), h') ->
  exists group,
    trunks' = trunks ++ group /\
    Forall (under (Field.Name field)) group /\
    (leaves' = leaves \/ leaves' = leaves ++ [Field.Name field] /\ group = []).
Proof.
  unfold field_step. rewrite bind_lift.
  destruct (Schema.resolve _ _) as [subType| |]; [|done..].
  destruct (Visited ctx (Type_.Name subType)).
  { intros [= <- <- <-]. exists []. rewrite app_nil_r. by auto. }
  destruct (Field.Args field) as [|arg0 ?].
  - unfold bind.
    destruct (Next _ _ _ _ _) as [[[next| |] h1]|]; [|done..].
    destruct (recur next subType h1) as [[[subQueries| |] h2]|]; [|done..].
    destruct subQueries as [|q qs].
    + intros [= <- <- <-]. exists []. rewrite app_nil_r. by auto.
    + intros [= <- <- <-]. eexists. split; [done|]. split; [|by left].
      apply Forall_forall. intros t Ht.
      apply (list_elem_of_fmap (fun subQuery => Join [Field.Name field; subQuery] "/")
               (q :: qs)) in Ht as (sub & -> & _).
      by exists sub.
  - unfold bind at 1.
    destruct (append _ _ _) as [[[queryStr| |] h1]|]; [|done..].
    unfold bind at 1.
    destruct (ListArguments _ _ _) as [[[args| |] h2]|]; [|done..].
    unfold bind at 1.
    destruct (for_each _ args trunks h2) as [[[trunks2| |] h3]|] eqn:Hloop; [|done..].
    intros [= <- <- <-].
    assert (exists group, trunks2 = trunks ++ group /\
                          Forall (under (Field.Name field)) group) as (g & -> & Hg).
    { eapply (for_each_inv (fun t => exists group,
                 t = trunks ++ group /\ Forall (under (Field.Name field)) group));
        [| |exact Hloop].
      - exists []. by rewrite app_nil_r.
      - intros arg t h4 t' h5 (g & -> & Hg). unfold bind.
        destruct (Next _ _ _ _ _) as [[[next| |] h6]|]; [|done..].
        destruct (recur next subType h6) as [[[subQueries| |] h7]|]; [|done..].
        intros [= <- <-]. eexists. rewrite <-(assoc app). split; [done|].
        apply Forall_app. split; [done|].
        apply Forall_forall. intros t Ht.
        apply list_elem_of_fmap in Ht as (sub & -> & _).
        exists (arg +:+ "/" +:+ sub). simpl. by rewrite !string_app_assoc. }
    exists g. by auto.
Qed.

(** A round of the field loop adds its part to the trunks and leaves it
    is given: the part does not depend on them. *)
Lemma field_step_acc recur ctx field trunks leaves h :
  field_step recur ctx field (trunks, leaves) h =
  (let! '(group, leaf) := field_step recur ctx field ([], []) in
   ret (trunks ++ group, leaves ++ leaf)) h.
Proof.
  unfold field_step. rewrite bind_assoc. apply bind_ext. intros subType h0 _.
  destruct (Visited ctx (Type_.Name subType)).
  { unfold bind, ret. by rewrite !app_nil_r. }
  destruct (Field.Args field) as [|arg0 ?].
  - rewrite bind_assoc. apply bind_ext. intros next h1 _.
    rewrite bind_assoc. apply bind_ext. intros subQueries h2 _.
    destruct subQueries as [|q qs]; unfold bind, ret; cbn [app];
      by rewrite ?app_nil_r.
  - rewrite bind_assoc. apply bind_ext. intros queryStr h1 _.
    rewrite bind_assoc. apply bind_ext. intros args h2 _.
    rewrite bind_assoc. unfold bind at 1. rewrite for_each_acc.
    + unfold bind, ret.
      destruct (for_each _ args [] h2) as [[[g| |] h3]|]; [|done..].
      by rewrite app_nil_r.
    + intros arg t h4. rewrite !bind_assoc. apply bind_ext. intros next h5 _.
      rewrite bind_assoc. apply bind_ext. intros subQueries h6 _.
      by unfold bind, ret.
Qed.

(** The field loop ends well exactly when every round does on empty trunks
    and leaves, and then adds the parts of the rounds in their order. *)
Lemma for_each_gathered recur ctx fs trunks leaves h trunks' leaves' h' :
  for_each (field_step recur ctx) fs (trunks, leaves) h =
    Some (Ok (trunks', leaves'), h') <->
  exists parts,
    gathered (fun field => field_step recur ctx field ([], [])) fs h parts h' /\
    trunks' = trunks ++ concat (fst <$> parts) /\
    leaves' = leaves ++ concat (snd <$> parts).
Proof.
  revert trunks leaves h. induction fs as [|field fs IH]; intros trunks leaves h.
  - cbn. unfold ret. split.
    + intros [= <- <- <-]. exists []. split; [constructor|]. by rewrite !app_nil_r.
    + intros (parts & Hg & -> & ->). inversion Hg; subst. cbn. by rewrite !app_nil_r.
  - cbn [for_each]. unfold bind at 1. rewrite field_step_acc. unfold bind at 1.
    split.
    + destruct (field_step recur ctx field ([], []) h) as [[[[g l]| |] h1]|] eqn:Hx;
        [|done..].
      unfold ret at 1. intros (parts & Hg & -> & ->)%IH.
      exists ((g, l) :: parts). split; [by econstructor|]. cbn.
      by rewrite <-!(assoc app).
    + intros (parts & Hg & -> & ->).
      inversion Hg as [|? ? ? [g l] h1 parts' ? Hx Hrest]; subst.
      rewrite Hx. unfold ret at 1. apply IH. exists parts'. split; [done|].
      cbn. by rewrite <-!(assoc app).
Qed.

(** A part is either leaves or trunks: the trunks lie under the name of the
    field, and the only leaf is this name. *)
Lemma gathered_shape recur ctx fs h parts h' :
  gathered (fun field => field_step recur ctx field ([], [])) fs h parts h' ->
  Forall2 (fun field part =>
             Forall (under (Field.Name field)) (fst part) /\
             (snd part = [] \/ snd part = [Field.Name field] /\ fst part = []))
          fs parts.
Proof.
  induction 1 as [|field fs h [g l] h1 parts h' Hstep _ IH]; constructor; [|done].
  apply field_step_shape in Hstep as (group & Hg & Hunder & Hl).
  cbn in Hg. subst g. split; [done|]. cbn.
  destruct Hl as [->|[-> ->]]; by auto.
Qed.

(** Along a chain of recursive steps the entered names are pairwise
    distinct, none of them was visited at the start, and they are what the
    visited set has gained. *)
Lemma descends_fresh ctx0 path ctx :
  descends ctx0 path ctx ->
  NoDup path /\
  (forall name, name ∈ path -> Visited ctx0 name = false) /\
  dom (visitedTypes ctx) = dom (visitedTypes ctx0) ∪ list_to_set path.
Proof.
  intros Hd.
  assert (NoDup path /\
          (forall name, name ∈ path -> Visited ctx0 name = false) /\
          dom (visitedTypes ctx) = dom (visitedTypes ctx0) ∪ list_to_set path /\
          (path = [] -> ctx = ctx0) /\
          (path <> [] ->
           forall name, name ∈ dom (visitedTypes ctx) -> Visited ctx name = true))
    as (? & ? & ? & _); [|done].
  induction Hd as [|path ctx next subType _ IH Hent].
  - split; [constructor|]. split; [by intros ? ?%elem_of_nil|].
    split; [|done]. cbn. by rewrite (right_id_L ∅ (∪)).
  - destruct IH as (Hnd & Hnew & Hdom & Hnil & Htrue).
    destruct Hent as (Hvis & Hnext & _).
    set (n := Type_.Name subType) in *.
    assert (Hn : n ∉ path).
    { intros Hin. rewrite Htrue in Hvis; [done| |].
      - intros ->. by apply elem_of_nil in Hin.
      - rewrite Hdom. apply elem_of_union_r. by apply elem_of_list_to_set. }
    assert (Hn0 : Visited ctx0 n = false).
    { destruct (decide (path = [])) as [Hp|Hp]; [by rewrite <-(Hnil Hp)|].
      unfold Visited. destruct (visitedTypes ctx0 !! n) eqn:Hl; [|done].
      rewrite Htrue in Hvis; [done..|]. rewrite Hdom.
      apply elem_of_union_l, elem_of_dom. by eexists. }
    split; [|split; [|split; [|split]]].
    + apply NoDup_app. split; [done|]. split; [|apply NoDup_singleton].
      intros x Hx ->%list_elem_of_singleton. done.
    + intros name [Hin| ->%list_elem_of_singleton]%elem_of_app; by auto.
    + rewrite Hnext, dom_union_L, dom_fmap_L, dom_singleton_L, Hdom,
        list_to_set_app_L. cbn. by rewrite (right_id_L ∅ (∪)), (assoc_L (∪)).
    + by intros [_ [=]]%app_eq_nil.
    + intros _ name Hin. unfold Visited. rewrite Hnext.
      destruct (visitedTypes ctx !! name) as [b|] eqn:Hl.
      * erewrite lookup_union_Some_l; [done|]. by rewrite lookup_fmap, Hl.
      * rewrite lookup_union_r by (by rewrite lookup_fmap, Hl).
        rewrite Hnext, dom_union_L, dom_fmap_L, dom_singleton_L in Hin.
        apply elem_of_union in Hin as [Hin| ->%elem_of_singleton].
        -- apply elem_of_dom in Hin as [b Hb]. by rewrite Hb in Hl.
        -- by rewrite lookup_singleton_eq.
Qed.

(** C2.  [Next] builds, whatever the store holds, a context whose visited
    set is the caller's with the entered type name added; a field whose
    resolved type name the context has visited is skipped; every recursive
    call that a round of the field loop makes is made on such a context, for
    a type name that the caller has not visited; hence along any chain of
    recursive steps no type name is entered twice, and the visited set is
    the set of the names entered. *)
Theorem visited_types_along_path :
  (forall ctx typename fieldName arg h,
     exists next h',
       Next ctx typename fieldName arg h = Some (Ok next, h') /\
       visitedTypes next =
         ((fun _ : bool => true) <$> visitedTypes ctx) ∪ {[ typename := true ]} /\
       dom (visitedTypes next) = dom (visitedTypes ctx) ∪ {[ typename ]}) /\
  (forall recur ctx field acc h subType,
     Schema.resolve (CtrlClient.Schema c) (Field.Type_ field) = Ok subType ->
     Visited ctx (Type_.Name subType) = true ->
     field_step recur ctx field acc h = Some (Ok acc, h)) /\
  (forall recur recur' ctx field acc h,
     (forall next subType h', enters ctx next subType ->
        recur next subType h' = recur' next subType h') ->
     field_step recur ctx field acc h = field_step recur' ctx field acc h) /\
  (forall ctx0 path ctx,
     descends ctx0 path ctx ->
     NoDup path /\
     (forall name, name ∈ path -> Visited ctx0 name = false) /\
     dom (visitedTypes ctx) = dom (visitedTypes ctx0) ∪ list_to_set path).
Proof.
  split; [|split; [|split]].
  - intros ctx typename fieldName arg h.
    destruct (Next_run ctx typename fieldName arg h) as (q & h' & Hn).
    eexists _, _. split; [exact Hn|]. split; [reflexivity|]. cbn.
    rewrite dom_union_L, dom_fmap_L, dom_singleton_L. done.
  - intros recur ctx field [trunks leaves] h subType Hres Hvis.
    unfold field_step. by rewrite bind_lift, Hres, Hvis.
  - apply field_step_ext.
  - apply descends_fresh.
Qed.

(** C6.  A result of [completeQuery] that is not empty is exactly the
    leaves that the field loop gathered, as they are or combined, followed
    by the trunks that it gathered: every field, in the order of
    declaration and on the store that the fields before it left, gives its
    part, the leaves are the parts' leaves and the trunks the parts' trunks,
    each concatenated in this order; and conversely these parts fix the
    result.  A field's part is nothing when its type is visited; for a field
    without arguments its name as a leaf when the recursive call returns
    nothing, and else the results of the recursive call, in their order,
    each under the name of the field; for a field with arguments the results
    of the recursive calls, argument value by argument value, each under the
    name of the field and the value.  The object whose fields [name] and
    [action] are leaves yields, without leaf combination, exactly these two
    names; a type that declares an object field before its leaves yields the
    leaves first. *)
Theorem completeQuery_leaves_then_trunks :
  (forall fuel ctx root h queries h',
     completeQuery fuel ctx root h = Some (Ok queries, h') ->
     queries = [] \/
     exists fuel' parts,
       fuel = S fuel' /\
       gathered (fun field => field_step (completeQuery fuel') ctx field ([], []))
                (Type_.Fields root) h parts h' /\
       Forall2 (fun field part =>
                  Forall (under (Field.Name field)) (fst part) /\
                  (snd part = [] \/
                   snd part = [Field.Name field] /\ fst part = []))
               (Type_.Fields root) parts /\
       let trunks := concat (fst <$> parts) in
       let leaves := concat (snd <$> parts) in
       if completeLeaves ctx
       then exists perms,
              fullPermutation leaves = Ok perms /\
              queries = map (fun leafPrmt => Join leafPrmt ",") perms ++ trunks
       else queries = leaves ++ trunks) /\
  (forall fuel ctx root h parts h',
     IsComplete ctx = false ->
     Type_.Kind root ∉ [ScalarKind; EnumKind; ListKind; NonNullKind] ->
     gathered (fun field => field_step (completeQuery fuel) ctx field ([], []))
              (Type_.Fields root) h parts h' ->
     let trunks := concat (fst <$> parts) in
     let leaves := concat (snd <$> parts) in
     completeQuery (S fuel) ctx root h =
     Some (if completeLeaves ctx
           then match fullPermutation leaves with
                | Ok perms =>
                    Ok (map (fun leafPrmt => Join leafPrmt ",") perms ++ trunks)
                | Err e => Err e
                | Panic p => Panic p
                end
           else Ok (leaves ++ trunks), h')) /\
  (forall recur ctx field subType h,
     Schema.resolve (CtrlClient.Schema c) (Field.Type_ field) = Ok subType ->
     (Visited ctx (Type_.Name subType) = true ->
      field_step recur ctx field ([], []) h = Some (Ok ([], []), h)) /\
     (forall next h1 subQueries h2,
        Visited ctx (Type_.Name subType) = false ->
        Field.Args field = [] ->
        Next ctx (Type_.Name subType) (Field.Name field) "" h = Some (Ok next, h1) ->
        recur next subType h1 = Some (Ok subQueries, h2) ->
        field_step recur ctx field ([], []) h =
        Some (Ok (if decide (subQueries = [])
                  then ([], [Field.Name field])
                  else (map (fun subQuery => Join [Field.Name field; subQuery] "/")
                            subQueries, [])), h2)) /\
     (forall arg0 rest queryStr h1 args h2 results h3,
        Visited ctx (Type_.Name subType) = false ->
        Field.Args field = arg0 :: rest ->
        append (AutoCompleteContext.query ctx) (Field.Name field) h =
          Some (Ok queryStr, h1) ->
        ListArguments queryStr (Argument.Name arg0) h1 = Some (Ok args, h2) ->
        gathered (fun arg =>
                    let! next :=
                      Next ctx (Type_.Name subType) (Field.Name field) arg in
                    recur next subType)
                 args h2 results h3 ->
        field_step recur ctx field ([], []) h =
        Some (Ok (concat
                    (zip_with
                       (fun arg subQueries =>
                          map (fun subQuery =>
                                 Join [Field.Name field; arg; subQuery] "/")
                              subQueries)
                       args results), []), h3))) /\
  Fixture.run
    (let! ctx := NewAutoCompleteContext "ns1" 6 false in
     Fixture.engine Fixture.client 7 ctx Fixture.Pod) =
  Some (Ok ["name"; "action"]) /\
  fst <$> Fixture.engine Fixture.client 7 (Fixture.root_ctx false) Fixture.Mixed
            Fixture.root_heap =
  Some (Ok ["name"; "kind"; "label";
            "pod/name"; "pod/action"; "pods/name"; "pods/action"]) /\
  fst <$> Fixture.engine Fixture.client 7 (Fixture.root_ctx true) Fixture.Mixed
            Fixture.root_heap =
  Some (Ok ["name"; "kind"; "label";
            "name,kind"; "kind,name"; "name,label"; "label,name";
            "kind,label"; "label,kind";
            "pod/name"; "pod/action"; "pods/name"; "pods/action"]).
Proof.
  split; [|split; [|split; [|split; [reflexivity|split; reflexivity]]]].
  - intros [|fuel] ctx root h queries h'; [done|].
    cbn [completeQuery].
    destruct (IsComplete ctx); [intros [= <- <-]; by left|].
    destruct (Type_.Kind root); try (intros [= <- <-]; by left); try done.
    unfold bind.
    destruct (for_each _ _ _ _) as [[[[trunks leaves]| |] h1]|] eqn:Hloop;
      [|done..].
    apply for_each_gathered in Hloop as (parts & Hparts & -> & ->).
    cbn [app]. unfold lift, assemble.
    destruct (completeLeaves ctx); cbn [negb].
    + destruct (fullPermutation _) as [perms| |] eqn:Hperms; [|done..].
      intros [= <- <-]. right. exists fuel, parts.
      split; [done|]. split; [done|]. split; [by eapply gathered_shape|].
      by exists perms.
    + intros [= <- <-]. right. exists fuel, parts.
      split; [done|]. split; [done|]. split; [by eapply gathered_shape|]. done.
  - intros fuel ctx root h parts h' Hc Hk Hparts trunks leaves.
    assert (Hloop : for_each (field_step (completeQuery fuel) ctx) (Type_.Fields root)
                      ([], []) h = Some (Ok (trunks, leaves), h')).
    { apply for_each_gathered. by exists parts. }
    cbn [completeQuery]. rewrite Hc.
    destruct (Type_.Kind root);
      try solve [exfalso; apply Hk;
                 repeat first [apply list_elem_of_here | apply list_elem_of_further]].
    all: erewrite bind_run by exact Hloop.
    all: unfold lift, assemble.
    all: destruct (completeLeaves ctx); cbn [negb]; [|done].
    all: by destruct (fullPermutation leaves).
  - intros recur ctx field subType h Hres. split; [|split].
    + intros Hvis. unfold field_step. by rewrite bind_lift, Hres, Hvis.
    + intros next h1 subQueries h2 Hvis Hargs Hnext Hrec.
      unfold field_step. rewrite bind_lift, Hres, Hvis, Hargs.
      erewrite bind_run by exact Hnext. erewrite bind_run by exact Hrec.
      by destruct subQueries.
    + intros arg0 rest queryStr h1 args h2 results h3 Hvis Hargs Happ Hlist Hres'.
      unfold field_step. rewrite bind_lift, Hres, Hvis, Hargs.
      erewrite bind_run by exact Happ. erewrite bind_run by exact Hlist.
      erewrite bind_run; [reflexivity|].
      erewrite for_each_ext;
        [|intros arg t h4 _; symmetry;
          apply (bind_assoc
                   (Next ctx (Type_.Name subType) (Field.Name field) arg)
                   (fun next => recur next subType)
                   (fun subQueries =>
                      ret (t ++ map (fun subQuery =>
                                       Join [Field.Name field; arg; subQuery] "/")
                                    subQueries)))].
      apply (proj2 (gathered_args
               (fun arg => let! next :=
                             Next ctx (Type_.Name subType) (Field.Name field) arg in
                           recur next subType)
               (fun arg subQueries =>
                  map (fun subQuery => Join [Field.Name field; arg; subQuery] "/")
                      subQueries) args [] h2 _ h3)).
      exists results. split; [done|]. reflexivity.
Qed.

(** C10.  [fullPermutation] panics on the empty sequence, on the slice
    expression [strs[1:]]; so [completeQuery] with leaf combination panics
    whenever the field loop of an object type ends without a leaf. *)
Theorem completeLeaves_without_leaves_panics :
  fullPermutation [] = Panic (SliceBounds 1 0) /\
  (forall fuel ctx root h trunks h',
     IsComplete ctx = false ->
     Type_.Kind root = ObjectKind ->
     completeLeaves ctx = true ->
     for_each (field_step (completeQuery fuel) ctx) (Type_.Fields root) ([], []) h =
       Some (Ok (trunks, []), h') ->
     completeQuery (S fuel) ctx root h = Some (Panic (SliceBounds 1 0), h')) /\
  Fixture.run
    (let! ctx := NewAutoCompleteContext "ns1" 6 true in
     Fixture.engine Fixture.client 7 ctx Fixture.Holder) =
  Some (Panic (SliceBounds 1 0)).
Proof.
  split; [reflexivity|]. split; [|reflexivity].
  intros fuel ctx root h trunks h' Hc Hk Hcl Hloop.
  cbn [completeQuery]. rewrite Hc, Hk.
  erewrite bind_run by exact Hloop.
  unfold lift, assemble. by rewrite Hcl.
Qed.

End EngineFacts.

(** ** The theorems at the fixture *)

Lemma completeQuery_leaf_and_modifier_witness :
  (0 < 6)%Z /\
  Fixture.engine Fixture.client 7 (Fixture.root_ctx false) Fixture.String_
    Fixture.root_heap = Some (Ok [], Fixture.root_heap) /\
  Fixture.engine Fixture.client 7 (Fixture.root_ctx false)
    (Type_.mk NonNullKind "" []) Fixture.root_heap =
  Some (Err (ErrTypeNotSupported (Type_.mk NonNullKind "" [])), Fixture.root_heap).
Proof.
  assert (Hl : (0 < maxRecurLevel (Fixture.root_ctx false))%Z) by (simpl; lia).
  split; [lia|]. split.
  - apply (completeQuery_leaf_and_modifier Fixture.growcap Fixture.Plural
             Fixture.ToCamel Fixture.Sprintf_f Fixture.client 6
             (Fixture.root_ctx false) Fixture.String_ Fixture.root_heap Hl).
    left. reflexivity.
  - apply (completeQuery_leaf_and_modifier Fixture.growcap Fixture.Plural
             Fixture.ToCamel Fixture.Sprintf_f Fixture.client 6
             (Fixture.root_ctx false) (Type_.mk NonNullKind "" [])
             Fixture.root_heap Hl).
    right. reflexivity.
Defined.

Lemma CompleteQuery_budget_witness :
  Fixture.engine Fixture.client 1
    (AutoCompleteContext.mk 0 ∅ false (mkSlice 0 2 2)) Fixture.Namespace
    Fixture.root_heap = Some (Ok [], Fixture.root_heap).
Proof.
  apply (CompleteQuery_budget Fixture.growcap Fixture.Plural Fixture.ToCamel
           Fixture.Sprintf_f Fixture.client).
  reflexivity.
Defined.

Lemma completeQuery_terminates_witness :
  (0 <= 6 < 2 ^ 63)%Z /\
  exists r,
    forall fuel, (6 < fuel)%nat ->
      Fixture.engine Fixture.client fuel (Fixture.root_ctx false) Fixture.Node
        Fixture.root_heap = Some r.
Proof.
  assert (Hl : (0 <= maxRecurLevel (Fixture.root_ctx false) < 2 ^ 63)%Z)
    by (simpl; lia).
  split; [exact Hl|].
  exact (proj1 (completeQuery_terminates Fixture.growcap Fixture.Plural
                  Fixture.ToCamel Fixture.Sprintf_f Fixture.client
                  (Fixture.root_ctx false) Fixture.Node Fixture.root_heap Hl)).
Defined.

Lemma visited_types_along_path_witness :
  let ctx := AutoCompleteContext.mk 5 {[ "Node" := true ]} false (mkSlice 0 2 2) in
  let field := Field.mk "next" (NamedRef ObjectKind "Node") [] in
  field_step Fixture.growcap Fixture.Plural Fixture.ToCamel Fixture.Sprintf_f
    Fixture.client (Fixture.engine Fixture.client 5) ctx field ([], ["name"])
    Fixture.root_heap =
  Some (Ok ([], ["name"]), Fixture.root_heap).
Proof.
  intros ctx field.
  destruct (visited_types_along_path Fixture.growcap Fixture.Plural
              Fixture.ToCamel Fixture.Sprintf_f Fixture.client)
    as (_ & Hskip & _).
  apply (Hskip _ ctx field _ _ Fixture.Node); reflexivity.
Defined.

Lemma completeQuery_leaves_then_trunks_witness :
  exists h',
    ["name"; "kind"; "label";
     "name,kind"; "kind,name"; "name,label"; "label,name";
     "kind,label"; "label,kind";
     "pod/name"; "pod/action"; "pods/name"; "pods/action"] = [] \/
    exists fuel' parts,
      7%nat = S fuel' /\
      gathered
        (fun field =>
           field_step Fixture.growcap Fixture.Plural Fixture.ToCamel
             Fixture.Sprintf_f Fixture.client (Fixture.engine Fixture.client fuel')
             (Fixture.root_ctx true) field ([], []))
        (Type_.Fields Fixture.Mixed) Fixture.root_heap parts h' /\
      Forall2 (fun field part =>
                 Forall (under (Field.Name field)) (fst part) /\
                 (snd part = [] \/
                  snd part = [Field.Name field] /\ fst part = []))
              (Type_.Fields Fixture.Mixed) parts /\
      exists perms,
        fullPermutation (concat (snd <$> parts)) = Ok perms /\
        ["name"; "kind"; "label";
         "name,kind"; "kind,name"; "name,label"; "label,name";
         "kind,label"; "label,kind";
         "pod/name"; "pod/action"; "pods/name"; "pods/action"] =
        map (fun leafPrmt => Join leafPrmt ",") perms ++ concat (fst <$> parts).
Proof.
  destruct (completeQuery_leaves_then_trunks Fixture.growcap Fixture.Plural
              Fixture.ToCamel Fixture.Sprintf_f Fixture.client) as [Horder _].
  eexists.
  eapply (Horder 7%nat (Fixture.root_ctx true) Fixture.Mixed Fixture.root_heap).
  vm_compute. reflexivity.
Defined.

Lemma completeLeaves_without_leaves_panics_witness :
  exists h',
    Fixture.engine Fixture.client 7 (Fixture.root_ctx true) Fixture.Holder
      Fixture.root_heap = Some (Panic (SliceBounds 1 0), h').
Proof.
  destruct (completeLeaves_without_leaves_panics Fixture.growcap Fixture.Plural
              Fixture.ToCamel Fixture.Sprintf_f Fixture.client) as (_ & Hpanic & _).
  eexists.
  eapply (Hpanic 6%nat (Fixture.root_ctx true) Fixture.Holder Fixture.root_heap);
    [reflexivity..|].
  vm_compute. reflexivity.
Defined.

(** * Further properties *)

(** ** The store and the query path *)

Section StoreFacts.
Variable growcap : nat -> nat.
Local Abbreviation append := (append growcap).

Lemma holds_length h s xs : holds h s xs -> length xs = s_len s.
Proof.
  intros (Hlc & arr & _ & Hcap & <-). rewrite length_take. lia.
Qed.

Lemma holds_elements h s xs : holds h s xs -> elements s h = Some (Ok xs, h).
Proof.
  intros (_ & arr & Harr & _ & <-). by apply elements_run.
Qed.

(** [append] on a slice whose array lies beyond the first [n] arrays of the
    store leaves these arrays alone. *)
Lemma append_holds n s v h xs :
  holds h s xs -> (n <= s_array s)%nat -> (n <= length h)%nat ->
  exists s' h',
    append s v h = Some (Ok s', h') /\
    holds h' s' (xs ++ [v]) /\
    (n <= s_array s')%nat /\ (n <= length h')%nat /\ take n h' = take n h.
Proof.
  intros (Hlc & arr & Harr & Hcap & Hxs) Hn Hnh.
  destruct (decide (s_len s < s_cap s)%nat) as [Hlt|Hge].
  - rewrite append_in_place by done. eexists _, _. split; [done|].
    split; [|split; [done|split]].
    + split; [simpl; lia|]. exists (<[s_len s := v]> arr). cbn [s_array s_len s_cap].
      rewrite list_lookup_alter_eq, Harr. split; [done|].
      rewrite length_insert. split; [done|].
      replace (s_len s + 1)%nat with (S (s_len s)) by lia.
      erewrite take_S_r; [|apply list_lookup_insert_eq; lia].
      rewrite take_insert_ge by lia. by rewrite Hxs.
    + by rewrite length_alter.
    + apply list_eq. intros i. rewrite !lookup_take.
      case_decide; [|done]. rewrite list_lookup_alter_ne by lia. done.
  - unfold append. rewrite decide_False by done.
    erewrite bind_run by (by apply elements_run).
    unfold bind, alloc, ret. eexists _, _. split; [done|].
    assert (Hlen : s_len s = s_cap s) by lia.
    split; [|split; [|split]].
    + split; [cbn; lia|]. eexists. cbn [s_array s_len s_cap].
      rewrite lookup_app_r, Nat.sub_diag by done. split; [done|].
      assert (Hl : length (take (s_len s) arr) = s_len s) by (rewrite length_take; lia).
      split.
      * rewrite length_app. cbn [length]. rewrite length_replicate, Hl. lia.
      * rewrite Hxs in *. rewrite (cons_middle v), (assoc app).
        apply take_app_length'. rewrite length_app. simpl. lia.
    + cbn. lia.
    + rewrite length_app. lia.
    + by rewrite take_app_le.
Qed.

Lemma for_each_append_holds n segs s h xs :
  holds h s xs -> (n <= s_array s)%nat -> (n <= length h)%nat ->
  exists s' h',
    for_each (fun seg query => append query seg) segs s h = Some (Ok s', h') /\
    holds h' s' (xs ++ segs) /\
    (n <= s_array s')%nat /\ (n <= length h')%nat /\ take n h' = take n h.
Proof.
  revert s h xs. induction segs as [|seg segs IH]; intros s h xs Hs Hn Hnh.
  - exists s, h. rewrite app_nil_r. split; [done|]. split; [exact Hs|]. by repeat split.
  - destruct (append_holds n s seg h xs Hs Hn Hnh)
      as (s1 & h1 & Hrun & Hs1 & Hn1 & Hnh1 & Hold1).
    destruct (IH s1 h1 (xs ++ [seg]) Hs1 Hn1 Hnh1)
      as (s2 & h2 & Hrun2 & Hs2 & Hn2 & Hnh2 & Hold2).
    exists s2, h2. cbn [for_each]. rewrite (bind_run _ _ _ _ _ Hrun).
    split; [done|]. rewrite <-(assoc app) in Hs2. split; [done|].
    split; [done|]. split; [done|]. by rewrite Hold2.
Qed.

(** X1.  [Next] copies the query path: the new context holds the caller's
    path, then the field name, then the argument unless it is empty, in an
    array of its own that lies beyond the arrays the store had; those are
    as they were, the caller's path among them. *)
Theorem Next_copies_path ctx typename fieldName arg h :
  exists next h',
    Next growcap ctx typename fieldName arg h = Some (Ok next, h') /\
    holds h' (AutoCompleteContext.query next)
      (take (s_len (AutoCompleteContext.query ctx))
            (default [] (h !! s_array (AutoCompleteContext.query ctx))) ++
       fieldName :: (if String.eqb arg "" then [] else [arg])) /\
    (length h <= s_array (AutoCompleteContext.query next))%nat /\
    take (length h) h' = h.
Proof.
  set (q := AutoCompleteContext.query ctx).
  set (xs := take (s_len q) (default [] (h !! s_array q))).
  unfold Next, make_empty, slice_literal.
  unfold bind at 1 2. unfold alloc, ret at 1. cbn [length].
  assert (Hel : elements q (h ++ [[]]) = Some (Ok xs, h ++ [[]])).
  { unfold elements, bind, load, ret. do 3 f_equal. unfold xs. f_equal.
    destruct (decide (s_array q < length h)%nat).
    - by rewrite lookup_app_l.
    - rewrite (lookup_ge_None_2 h) by lia. cbn.
      destruct (decide (s_array q = length h)) as [->|].
      + by rewrite lookup_app_r, Nat.sub_diag.
      + rewrite lookup_ge_None_2; [done|]. rewrite length_app. simpl. lia. }
  rewrite (bind_run _ _ _ _ _ Hel).
  assert (H0 : holds (h ++ [[]]) (mkSlice (length h) 0 0) []).
  { split; [done|]. exists []. cbn. by rewrite lookup_app_r, Nat.sub_diag. }
  destruct (for_each_append_holds (length h) xs _ _ [] H0)
    as (q1 & h1 & Hrun1 & Hq1 & Hn1 & Hnh1 & Hold1);
    [done|rewrite length_app; lia|].
  rewrite (bind_run _ _ _ _ _ Hrun1).
  destruct (append_holds (length h) q1 fieldName h1 _ Hq1 Hn1 Hnh1)
    as (q2 & h2 & Hrun2 & Hq2 & Hn2 & Hnh2 & Hold2).
  rewrite (bind_run _ _ _ _ _ Hrun2).
  assert (Hbase : take (length h) (h ++ [[]]) = h) by (by rewrite take_app_length).
  destruct (String.eqb arg "").
  - unfold bind, ret. eexists _, _. split; [done|]. cbn [AutoCompleteContext.query].
    split; [done|]. split; [done|]. by rewrite Hold2, Hold1.
  - destruct (append_holds (length h) q2 arg h2 _ Hq2 Hn2 Hnh2)
      as (q3 & h3 & Hrun3 & Hq3 & Hn3 & Hnh3 & Hold3).
    rewrite (bind_run _ _ _ _ _ Hrun3). unfold ret.
    eexists _, _. split; [done|]. cbn [AutoCompleteContext.query].
    rewrite <-(assoc app) in Hq3. split; [done|]. split; [done|].
    by rewrite Hold3, Hold2, Hold1.
Qed.
End StoreFacts.

(** ** More on the argument lister *)

Lemma nth_take_lt {A} (i n : nat) (l : list A) (d : A) :
  (i < n)%nat -> nth i (take n l) d = nth i l d.
Proof. intros Hi. rewrite nth_firstn. by rewrite (proj2 (Nat.ltb_lt _ _) Hi). Qed.

Lemma take_three_stores (arr : list string) (n : nat) (f p a : string) :
  (1 <= n < length arr)%nat ->
  take n (<[n := a]> (<[(n - 1)%nat := p]> (<[n := f]> arr))) = take (n - 1) arr ++ [p].
Proof.
  intros Hn. rewrite take_insert_ge by lia.
  replace n with (S (n - 1)) at 1 by lia.
  erewrite take_S_r.
  2:{ apply list_lookup_insert_eq. rewrite length_insert. lia. }
  rewrite take_insert_ge by lia.
  replace (<[n:=f]> arr) with (<[S (n - 1):=f]> arr) by (f_equal; lia).
  rewrite take_insert_ge by lia. done.
Qed.

Section ListerFacts.
Variable growcap : nat -> nat.
Variable Plural ToCamel : string -> string.
Variable Sprintf_f : Z -> string.
Variable c : CtrlClient.t.
Local Abbreviation append := (append growcap).
Local Abbreviation ListArguments := (ListArguments growcap Plural ToCamel Sprintf_f c).
Local Abbreviation list_request := (list_request ToCamel Sprintf_f c).

(** The run of [ListArguments] with the store it leaves. *)
Lemma ListArguments_run_store (queryStr : Slice) (argumentName : string) (h : Heap)
    (arr : list string) (queryType : Type_.t) :
  GetQueryType c = Ok queryType ->
  h !! s_array queryStr = Some arr ->
  (2 <= s_len queryStr <= s_cap queryStr)%nat ->
  (s_cap queryStr <= length arr)%nat ->
  ListArguments queryStr argumentName h =
  Some (list_request
          (take (s_len queryStr - 2) arr ++
             [Plural (nth (s_len queryStr - 2) arr ""); argumentName])
          argumentName,
        <[s_array queryStr :=
            <[(s_len queryStr - 1)%nat := argumentName]>
              (<[(s_len queryStr - 2)%nat := Plural (nth (s_len queryStr - 2) arr "")]> arr)]> h).
Proof.
  intros Htype Harr Hn Hcap. destruct queryStr as [a n cap]; simpl in *.
  unfold ListArguments, list_request.
  rewrite bind_lift, Htype. cbn [and_then].
  erewrite bind_run by (apply slice_to_run; simpl; lia).
  cbn [s_array s_len s_cap].
  replace (Z.to_nat (Z.of_nat n - 1)) with (n - 1)%nat by lia.
  erewrite bind_run by (apply (index_run _ _ _ arr); simpl; [done|lia]).
  erewrite bind_run by (apply set_index_run; simpl; lia).
  erewrite bind_run by (apply append_in_place; simpl; lia).
  cbn [s_array s_len s_cap].
  replace (Z.to_nat (Z.of_nat (n - 1) - 1)) with (n - 2)%nat by lia.
  replace (n - 1 + 1)%nat with n by lia.
  set (arr' := <[(n - 1)%nat := argumentName]>
                 (<[(n - 2)%nat := Plural (nth (n - 2) arr "")]> arr)).
  set (h' := alter _ a (alter _ a h)).
  assert (Harr' : h' !! a = Some arr').
  { unfold h'. by rewrite !list_lookup_alter_eq, Harr. }
  assert (Hh' : h' = <[a := arr']> h).
  { apply list_eq. intros i. destruct (decide (i = a)) as [->|Hne].
    - rewrite Harr'. symmetry. apply list_lookup_insert_eq.
      by apply lookup_lt_Some in Harr.
    - unfold h'. by rewrite !list_lookup_alter_ne, list_lookup_insert_ne by done. }
  destruct (take_two_stores arr n (Plural (nth (n - 2) arr "")) argumentName)
    as [Htake Hnth]; [lia|]. cbv zeta in Htake, Hnth. fold arr' in Htake, Hnth.
  erewrite bind_run by (by apply (elements_run _ _ arr')).
  cbn [s_len]. rewrite Htake, <-Hh'.
  rewrite bind_lift.
  destruct (Schema.ParseQuery _ _ _) as [query| |]; [|done..]. cbn [and_then].
  rewrite bind_lift.
  destruct (Schema.Reflect _ _ _) as [[queryStruct variables]| |]; [|done..].
  cbn [and_then fst snd]. rewrite bind_lift.
  destruct (Client.Query _ _ _) as [queryValue| |]; [|done..].
  erewrite bind_run by (apply (index_run _ _ _ arr'); simpl; [done|lia]).
  unfold lift. cbn [and_then].
  replace (Z.to_nat (Z.of_nat n - 1)) with (n - 1)%nat by lia.
  by rewrite Hnth.
Qed.

(** X2.  On a query slice of at least two segments [ListArguments] is the
    request on the path without its last segment, with the segment before
    the last pluralized and the argument name appended, and its values are
    filtered by the argument name: the last segment of the caller's slice
    plays no part. *)
Theorem ListArguments_filters_by_argumentName (queryStr : Slice)
    (argumentName : string) (h : Heap) (xs : list string) :
  holds h queryStr xs -> (2 <= length xs)%nat ->
  fst <$> ListArguments queryStr argumentName h =
  Some (list_request
          (take (length xs - 2) xs ++
             [Plural (nth (length xs - 2) xs ""); argumentName])
          argumentName).
Proof.
  intros Hq Hlen. pose proof (holds_length _ _ _ Hq) as Hl.
  destruct Hq as (Hlc & arr & Harr & Hcap & <-).
  rewrite (ListArguments_run _ _ _ _ _ _ _ _ arr) by (done || lia).
  rewrite Hl, take_take, Nat.min_l, nth_take_lt by lia. done.
Qed.

(** X3.  [ListArguments] writes into the caller's slice: once the query type
    is found, whatever the call returns, the slice ends in the pluralized
    segment and the argument name; the store has as many arrays as before
    and the other arrays are as they were. *)
Theorem ListArguments_overwrites_queryStr (queryStr : Slice)
    (argumentName : string) (h : Heap) (xs : list string) (queryType : Type_.t) :
  GetQueryType c = Ok queryType ->
  holds h queryStr xs -> (2 <= length xs)%nat ->
  exists o h',
    ListArguments queryStr argumentName h = Some (o, h') /\
    holds h' queryStr
      (take (length xs - 2) xs ++
         [Plural (nth (length xs - 2) xs ""); argumentName]) /\
    length h' = length h /\
    forall a, a <> s_array queryStr -> h' !! a = h !! a.
Proof.
  intros Htype Hq Hlen. pose proof (holds_length _ _ _ Hq) as Hl.
  destruct Hq as (Hlc & arr & Harr & Hcap & <-).
  rewrite (ListArguments_run_store _ _ _ arr queryType) by (done || lia).
  eexists _, _. split; [done|].
  pose proof (lookup_lt_Some _ _ _ Harr) as Hlt.
  split; [|split].
  - split; [done|]. eexists. rewrite list_lookup_insert_eq by done.
    split; [done|]. rewrite !length_insert. split; [done|].
    destruct (take_two_stores arr (s_len queryStr)
                (Plural (nth (s_len queryStr - 2) arr "")) argumentName)
      as [Htake _]; [lia|]. cbv zeta in Htake. rewrite Htake, Hl.
    rewrite take_take, Nat.min_l, nth_take_lt by lia. done.
  - apply length_insert.
  - intros a Ha. by rewrite list_lookup_insert_ne.
Qed.

(** X4.  When the query type is not found [ListArguments] returns that error
    and leaves the store alone; otherwise it panics on an empty query slice
    (slice bounds) and on a query slice of one segment (index out of
    range). *)
Theorem ListArguments_short_path (queryStr : Slice) (argumentName : string)
    (h : Heap) :
  (forall e, GetQueryType c = Err e ->
     ListArguments queryStr argumentName h = Some (Err e, h)) /\
  (forall queryType, GetQueryType c = Ok queryType ->
     s_len queryStr = 0%nat ->
     ListArguments queryStr argumentName h =
     Some (Panic (SliceBounds (-1) (Z.of_nat (s_cap queryStr))), h)) /\
  (forall queryType, GetQueryType c = Ok queryType ->
     s_len queryStr = 1%nat -> (1 <= s_cap queryStr)%nat ->
     ListArguments queryStr argumentName h =
     Some (Panic (IndexRange (-1) 0), h)).
Proof.
  unfold ListArguments. split; [|split].
  - intros e ->. by rewrite bind_lift.
  - intros queryType -> Hlen. rewrite bind_lift, Hlen.
    unfold bind, slice_to. by rewrite decide_False by lia.
  - intros queryType -> Hlen Hcap. rewrite bind_lift, Hlen.
    erewrite bind_run by (apply slice_to_run; simpl; lia).
    unfold bind, index. cbn [s_len]. by rewrite decide_False by lia.
Qed.


(** [ListArguments] on a slice of at least two segments, whatever the query
    type lookup gives. *)
Lemma ListArguments_run_any (queryStr : Slice) (argumentName : string) (h : Heap)
    (arr : list string) :
  h !! s_array queryStr = Some arr ->
  (2 <= s_len queryStr <= s_cap queryStr)%nat ->
  (s_cap queryStr <= length arr)%nat ->
  exists h',
    ListArguments queryStr argumentName h =
    Some (list_request
            (take (s_len queryStr - 2) arr ++
               [Plural (nth (s_len queryStr - 2) arr ""); argumentName])
            argumentName, h').
Proof.
  intros Harr Hn Hcap.
  destruct (GetQueryType c) as [queryType|e|p] eqn:Htype.
  - eexists. by apply (ListArguments_run_store _ _ _ arr queryType).
  - exists h. unfold ListArguments, list_request.
    by rewrite bind_lift, Htype.
  - exists h. unfold ListArguments, list_request.
    by rewrite bind_lift, Htype.
Qed.

(** The call [c.ListArguments(append(ctx.query, field.Name), argument)] of
    [completeQuery]: what it requests, and what it leaves of the path. *)
Lemma append_then_list (q : Slice) (fieldName argumentName : string) (h : Heap)
    (xs : list string) :
  holds h q xs -> (1 <= length xs)%nat ->
  let path :=
    take (length xs - 1) xs ++ [Plural (nth (length xs - 1) xs ""); argumentName] in
  exists queryStr h1 h2,
    append q fieldName h = Some (Ok queryStr, h1) /\
    ListArguments queryStr argumentName h1 =
      Some (list_request path argumentName, h2) /\
    (forall queryType, GetQueryType c = Ok queryType ->
       ((s_len q < s_cap q)%nat ->
        holds h2 q (take (length xs - 1) xs ++ [Plural (nth (length xs - 1) xs "")])) /\
       (s_len q = s_cap q -> holds h2 q xs)).
Proof.
  intros Hq Hlen path. pose proof (holds_length _ _ _ Hq) as Hl.
  destruct (append_holds growcap 0 q fieldName h xs Hq ltac:(lia) ltac:(lia))
    as (queryStr & h1 & Hrun & Hq1 & _).
  pose proof (holds_length _ _ _ Hq1) as Hl1.
  rewrite length_app in Hl1. cbn [length] in Hl1.
  destruct Hq1 as (Hlc1 & arr1 & Harr1 & Hcap1 & Hxs1).
  assert (Htake : take (s_len queryStr - 2) arr1 = take (length xs - 1) xs).
  { replace (s_len queryStr - 2)%nat with (length xs - 1)%nat by lia.
    transitivity (take (length xs - 1) (take (s_len queryStr) arr1)).
    - by rewrite take_take, Nat.min_l by lia.
    - by rewrite Hxs1, take_app_le by lia. }
  assert (Hnth : nth (s_len queryStr - 2) arr1 "" = nth (length xs - 1) xs "").
  { replace (s_len queryStr - 2)%nat with (length xs - 1)%nat by lia.
    rewrite <-(nth_take_lt _ (s_len queryStr)) by lia.
    rewrite Hxs1, app_nth1 by lia. done. }
  exists queryStr.
  destruct (GetQueryType c) as [queryType|e|p] eqn:Htype.
  - exists h1. eexists. split; [done|]. split.
    + rewrite (ListArguments_run_store _ _ _ arr1 queryType) by (done || lia).
      by rewrite Htake, Hnth.
    + intros ? _.
      destruct Hq as (Hlc & arr & Harr & Hcap & Hxs).
      destruct (decide (s_len q < s_cap q)%nat) as [Hlt|Hge].
      * rewrite append_in_place in Hrun by done.
        injection Hrun as <- <-. cbn [s_array s_len s_cap] in *.
        split; [|intros ?; lia]. intros _.
        rewrite list_lookup_alter_eq, Harr in Harr1. injection Harr1 as <-.
        pose proof (lookup_lt_Some _ _ _ Harr) as Hlta.
        split; [done|]. eexists.
        rewrite list_lookup_insert_eq by (by rewrite length_alter).
        split; [done|]. rewrite !length_insert. split; [done|].
        replace (s_len q + 1 - 1)%nat with (s_len q) by lia.
        replace (s_len q + 1 - 2)%nat with (s_len q - 1)%nat by lia.
        rewrite take_three_stores by lia.
        rewrite Hl. f_equal.
        rewrite <-Hxs, take_take, Nat.min_l by lia. done.
      * split; [lia|]. intros _.
        unfold append in Hrun. rewrite decide_False in Hrun by done.
        erewrite bind_run in Hrun by (by apply (elements_run _ _ arr)).
        unfold bind, alloc, ret in Hrun. injection Hrun as <- <-.
        cbn [s_array s_len s_cap] in *.
        pose proof (lookup_lt_Some _ _ _ Harr) as Hlt.
        split; [done|]. exists arr.
        rewrite list_lookup_insert_ne by lia.
        rewrite lookup_app_l by done. done.
  - exists h1, h1. split; [done|]. split; [|intros ? [=]].
    unfold ListArguments, list_request. by rewrite bind_lift, Htype.
  - exists h1, h1. split; [done|]. split; [|intros ? [=]].
    unfold ListArguments, list_request. by rewrite bind_lift, Htype.
Qed.

End ListerFacts.

(** ** More on the completion engine *)

Lemma for_each_app {A S} (body : A -> S -> M S) (l1 l2 : list A) (s : S) h :
  for_each body (l1 ++ l2) s h = bind (for_each body l1 s) (for_each body l2) h.
Proof.
  revert s h. induction l1 as [|x l1 IH]; intros s h; [done|].
  cbn [app for_each]. unfold bind.
  destruct (body x s h) as [[[s1| |] h1]|]; [|done..]. apply IH.
Qed.

Section EngineMore.
Variable growcap : nat -> nat.
Variable Plural ToCamel : string -> string.
Variable Sprintf_f : Z -> string.
Variable c : CtrlClient.t.
Local Abbreviation append := (append growcap).
Local Abbreviation Next := (Next growcap).
Local Abbreviation ListArguments := (ListArguments growcap Plural ToCamel Sprintf_f c).
Local Abbreviation list_request := (list_request ToCamel Sprintf_f c).
Local Abbreviation field_step := (field_step growcap Plural ToCamel Sprintf_f c).
Local Abbreviation completeQuery := (completeQuery growcap Plural ToCamel Sprintf_f c).
Local Abbreviation CompleteQuery := (CompleteQuery growcap Plural ToCamel Sprintf_f c).

(** X5.  In the context that [Next] builds a type name is visited exactly
    when it is the name entered or a key of the caller's visited map,
    whatever that map records for it; the leaf-combination flag is carried
    over. *)
Theorem Next_marks_visited ctx typename fieldName arg h :
  exists next h',
    Next ctx typename fieldName arg h = Some (Ok next, h') /\
    (forall name,
       Visited next name = true <->
       name = typename \/ is_Some (visitedTypes ctx !! name)) /\
    completeLeaves next = completeLeaves ctx.
Proof.
  destruct (Next_run growcap ctx typename fieldName arg h) as (q & h' & Hn).
  eexists _, _. split; [exact Hn|]. split; [|done].
  intros name. unfold Visited. cbn [visitedTypes].
  destruct (visitedTypes ctx !! name) as [b|] eqn:Hl.
  - erewrite lookup_union_Some_l by (by rewrite lookup_fmap, Hl).
    split; [by eauto|done].
  - rewrite lookup_union_r by (by rewrite lookup_fmap, Hl).
    destruct (decide (name = typename)) as [->|Hne].
    + rewrite lookup_singleton_eq. split; [by auto|done].
    + rewrite lookup_singleton_ne by done. split; [done|].
      intros [?|[? [=]]]; done.
Qed.

(** X6.  The call of [ListArguments] on [append(ctx.query, field.Name)]
    pluralizes the last segment of the path of the context in place when
    that path has spare capacity, and leaves it alone when it is full. *)
Theorem listing_rewrites_context_path (q : Slice) (fieldName argumentName : string)
    (h : Heap) (xs : list string) (queryType : Type_.t) :
  GetQueryType c = Ok queryType ->
  holds h q xs -> (1 <= length xs)%nat ->
  exists o h',
    (let! queryStr := append q fieldName in
     ListArguments queryStr argumentName) h = Some (o, h') /\
    ((s_len q < s_cap q)%nat ->
     holds h' q (take (length xs - 1) xs ++ [Plural (nth (length xs - 1) xs "")])) /\
    (s_len q = s_cap q -> holds h' q xs).
Proof.
  intros Htype Hq Hlen.
  destruct (append_then_list growcap Plural ToCamel Sprintf_f c q fieldName
              argumentName h xs Hq Hlen) as (queryStr & h1 & h2 & Ha & Hl & Hpath).
  eexists _, h2. rewrite (bind_run _ _ _ _ _ Ha). split; [exact Hl|].
  exact (Hpath queryType Htype).
Qed.

(** X7.  For a field with arguments [completeQuery] requests the values of
    the first argument on the path of the context with its last segment
    pluralized, followed by the argument name; the name of the field is not
    part of the request.  A failure of the request is the result of the
    round, and a request without values leaves trunks and leaves as they
    were. *)
Theorem field_with_arguments_request recur ctx field arg0 rest subType acc h xs :
  Field.Args field = arg0 :: rest ->
  Schema.resolve (CtrlClient.Schema c) (Field.Type_ field) = Ok subType ->
  Visited ctx (Type_.Name subType) = false ->
  holds h (AutoCompleteContext.query ctx) xs -> (1 <= length xs)%nat ->
  let request :=
    list_request
      (take (length xs - 1) xs ++
         [Plural (nth (length xs - 1) xs ""); Argument.Name arg0])
      (Argument.Name arg0) in
  (forall e, request = Err e ->
     fst <$> field_step recur ctx field acc h = Some (Err e)) /\
  (request = Ok [] ->
     fst <$> field_step recur ctx field acc h = Some (Ok acc)).
Proof.
  intros Hargs Hres Hvis Hq Hlen request.
  destruct (append_then_list growcap Plural ToCamel Sprintf_f c _ (Field.Name field)
              (Argument.Name arg0) h xs Hq Hlen)
    as (queryStr & h1 & h2 & Ha & Hl & _).
  fold request in Hl.
  assert (Hstep : field_step recur ctx field acc h =
                  bind (ListArguments queryStr (Argument.Name arg0))
                    (fun args =>
                       let! trunks :=
                         for_each
                           (fun arg trunks =>
                              let! next := Next ctx (Type_.Name subType)
                                             (Field.Name field) arg in
                              let! subQueries := recur next subType in
                              ret (trunks ++
                                     map (fun subQuery =>
                                            Join [Field.Name field; arg; subQuery] "/")
                                         subQueries))
                           args acc.1 in
                       ret (trunks, acc.2)) h1).
  { unfold field_step. destruct acc as [trunks leaves].
    rewrite bind_lift, Hres, Hvis, Hargs. by rewrite (bind_run _ _ _ _ _ Ha). }
  rewrite Hstep. clear Hstep. split.
  - intros e Hreq. unfold bind at 1. by rewrite Hl, Hreq.
  - intros Hreq. unfold bind at 1. rewrite Hl, Hreq.
    cbn [for_each]. unfold bind, ret. by destruct acc.
Qed.

(** X8.  A field that takes arguments is never reported as a leaf. *)
Theorem field_with_arguments_never_leaf recur ctx field trunks leaves h
    trunks' leaves' h' :
  Field.Args field <> [] ->
  field_step recur ctx field (trunks, leaves) h = Some (Ok (trunks', leaves'), h') ->
  leaves' = leaves.
Proof.
  intros Hargs. unfold field_step. rewrite bind_lift.
  destruct (Schema.resolve _ _) as [subType| |]; [|done..].
  destruct (Visited ctx (Type_.Name subType)); [by intros [= _ <- _]|].
  destruct (Field.Args field) as [|arg0 rest]; [done|].
  unfold bind at 1. destruct (append _ _ _) as [[[queryStr| |] h1]|]; [|done..].
  unfold bind at 1. destruct (ListArguments _ _ _) as [[[args| |] h2]|]; [|done..].
  unfold bind at 1. destruct (for_each _ _ _ _) as [[[t| |] h3]|]; [|done..].
  by intros [= _ <- _].
Qed.

(** X9.  A field whose type does not resolve fails the whole call with the
    error of the resolver: what the fields before it gave is dropped and
    the fields after it are not looked at. *)
Theorem completeQuery_first_failure fuel ctx root pre field post acc h h1 e :
  IsComplete ctx = false ->
  Type_.Kind root = ObjectKind ->
  Type_.Fields root = pre ++ field :: post ->
  for_each (field_step (completeQuery fuel) ctx) pre ([], []) h = Some (Ok acc, h1) ->
  Schema.resolve (CtrlClient.Schema c) (Field.Type_ field) = Err e ->
  completeQuery (S fuel) ctx root h = Some (Err e, h1).
Proof.
  intros Hc Hk Hf Hpre Hres. cbn [completeQuery]. rewrite Hc, Hk, Hf.
  unfold bind at 1. rewrite for_each_app, (bind_run _ _ _ _ _ Hpre).
  cbn [for_each]. unfold bind at 1. unfold field_step at 1.
  destruct acc as [trunks leaves]. by rewrite bind_lift, Hres.
Qed.

(** X10.  With leaf combination an object with exactly one leaf does not
    report it: the result is the trunks alone. *)
Theorem completeQuery_single_leaf_dropped fuel ctx root h trunks leaf h' :
  IsComplete ctx = false ->
  Type_.Kind root = ObjectKind ->
  completeLeaves ctx = true ->
  for_each (field_step (completeQuery fuel) ctx) (Type_.Fields root) ([], []) h =
    Some (Ok (trunks, [leaf]), h') ->
  completeQuery (S fuel) ctx root h = Some (Ok trunks, h').
Proof.
  intros Hc Hk Hcl Hloop. cbn [completeQuery]. rewrite Hc, Hk.
  erewrite bind_run by exact Hloop.
  unfold lift, assemble. by rewrite Hcl.
Qed.

(** X11.  [CompleteQuery] comes to an end on every schema, client and
    store: seven nested calls of [completeQuery] are never used up, so the
    call has an outcome, which is a result, an error or a panic; and when
    the schema lacks the namespace type the outcome is that error, and
    nothing is allocated. *)
Theorem CompleteQuery_ends namespace completeLeaves h :
  (exists o h', CompleteQuery namespace completeLeaves h = Some (o, h')) /\
  (forall e,
     Schema.MustGetType (CtrlClient.Schema c) NamespaceType = Err e ->
     CompleteQuery namespace completeLeaves h = Some (Err e, h)).
Proof.
  unfold CompleteQuery. split.
  - rewrite bind_lift.
    destruct (Schema.MustGetType _ _) as [namespaceType| |]; [|by eexists _, _..].
    erewrite bind_run by reflexivity.
    set (ctx := AutoCompleteContext.mk 6 ∅ completeLeaves _).
    assert (Hr : int_range (maxRecurLevel ctx)) by (by vm_compute).
    destruct (completeQuery_fuel growcap Plural ToCamel Sprintf_f c 6 7 ctx
                namespaceType (h ++ [[NamespaceKey; namespace]]) eq_refl Hr)
      as [_ [[o h'] Hs]]; [lia|]. by exists o, h'.
  - intros e He. by rewrite bind_lift, He.
Qed.

(** The field loop over fields without arguments whose recursive calls
    return nothing: every field is a leaf. *)
Lemma leaves_loop recur ctx fields trunks leaves h :
  Forall (fun field =>
            Field.Args field = [] /\
            exists subType,
              Schema.resolve (CtrlClient.Schema c) (Field.Type_ field) = Ok subType /\
              Visited ctx (Type_.Name subType) = false /\
              forall next h', enters ctx next subType ->
                recur next subType h' = Some (Ok [], h')) fields ->
  exists h',
    for_each (field_step recur ctx) fields (trunks, leaves) h =
    Some (Ok (trunks, leaves ++ (Field.Name <$> fields)), h').
Proof.
  intros Hall. revert leaves h.
  induction Hall as [|field fields (Hargs & subType & Hres & Hvis & Hrec) _ IH];
    intros leaves h.
  - exists h. cbn. by rewrite app_nil_r.
  - destruct (Next_run growcap ctx (Type_.Name subType) (Field.Name field) "" h)
      as (q & h1 & Hn).
    destruct (IH (leaves ++ [Field.Name field]) h1) as (h' & Hloop).
    exists h'.
    assert (Hstep : field_step recur ctx field (trunks, leaves) h =
                    Some (Ok (trunks, leaves ++ [Field.Name field]), h1)).
    { unfold field_step. rewrite bind_lift, Hres, Hvis, Hargs.
      rewrite (bind_run _ _ _ _ _ Hn).
      erewrite bind_run; [|apply Hrec; by repeat split]. reflexivity. }
    cbn [for_each fmap list_fmap].
    rewrite (bind_run _ _ _ _ _ Hstep), Hloop. by rewrite <-(assoc app).
Qed.

(** X12.  Without leaf combination, an object all of whose fields take no
    argument and resolve to scalar or enum types that the context has not
    visited completes to the names of its fields, in the order of
    declaration; two fields of one type are both reported. *)
Theorem completeQuery_scalar_fields fuel ctx root h :
  IsComplete ctx = false ->
  Type_.Kind root = ObjectKind ->
  completeLeaves ctx = false ->
  Forall (fun field =>
            Field.Args field = [] /\
            exists subType,
              Schema.resolve (CtrlClient.Schema c) (Field.Type_ field) = Ok subType /\
              Visited ctx (Type_.Name subType) = false /\
              (Type_.Kind subType = ScalarKind \/ Type_.Kind subType = EnumKind))
         (Type_.Fields root) ->
  fst <$> completeQuery (S (S fuel)) ctx root h =
  Some (Ok (Field.Name <$> Type_.Fields root)).
Proof.
  intros Hc Hk Hcl Hall. cbn [completeQuery]. rewrite Hc, Hk.
  destruct (leaves_loop (completeQuery (S fuel)) ctx (Type_.Fields root) [] [] h)
    as (h' & Hloop).
  { eapply Forall_impl; [exact Hall|].
    intros field (Hargs & subType & Hres & Hvis & Hkind).
    split; [done|]. exists subType. split; [done|]. split; [done|].
    intros next h1 _. cbn [completeQuery].
    destruct (IsComplete next); [done|]. by destruct Hkind as [-> | ->]. }
  rewrite (bind_run _ _ _ _ _ Hloop). unfold lift, assemble. rewrite Hcl.
  cbn. by rewrite app_nil_r.
Qed.

(** X13.  With one level of budget left every field without arguments whose
    type is not visited is reported as a leaf, whatever the kind of its
    type: the budget is tested before the kind. *)
Theorem completeQuery_last_level fuel ctx root h :
  maxRecurLevel ctx = 1%Z ->
  Type_.Kind root = ObjectKind ->
  completeLeaves ctx = false ->
  Forall (fun field =>
            Field.Args field = [] /\
            exists subType,
              Schema.resolve (CtrlClient.Schema c) (Field.Type_ field) = Ok subType /\
              Visited ctx (Type_.Name subType) = false)
         (Type_.Fields root) ->
  fst <$> completeQuery (S (S fuel)) ctx root h =
  Some (Ok (Field.Name <$> Type_.Fields root)).
Proof.
  intros Hl Hk Hcl Hall. cbn [completeQuery].
  unfold IsComplete at 1. rewrite Hl, Hk. cbn [Z.eqb].
  destruct (leaves_loop (completeQuery (S fuel)) ctx (Type_.Fields root) [] [] h)
    as (h' & Hloop).
  { eapply Forall_impl; [exact Hall|].
    intros field (Hargs & subType & Hres & Hvis).
    split; [done|]. exists subType. split; [done|]. split; [done|].
    intros next h1 (_ & _ & Hnl & _). cbn [completeQuery].
    unfold IsComplete. by rewrite Hnl, Hl. }
  rewrite (bind_run _ _ _ _ _ Hloop). unfold lift, assemble. rewrite Hcl.
  cbn. by rewrite app_nil_r.
Qed.

End EngineMore.

(** ** More on the extraction of leaf values *)

(** Induction over decoded responses, through pointers, struct fields and
    slice elements. *)
Lemma GoValue_induction (P : GoValue -> Prop) :
  P (VPtr None) ->
  (forall elem, P elem -> P (VPtr (Some elem))) ->
  (forall fields, Forall (fun nv => P nv.2) fields -> P (VStruct fields)) ->
  (forall elems, Forall P elems -> P (VSlice elems)) ->
  (forall s, P (VString s)) ->
  (forall b, P (VBoolean b)) ->
  (forall i, P (VInt i)) ->
  (forall bits, P (VFloat bits)) ->
  (forall kind, P (VOther kind)) ->
  forall v, P v.
Proof.
  intros Hnil Hptr Hstruct Hslice Hstring Hbool Hint Hfloat Hother.
  fix IH 1. intros [[elem|]|fields|elems|s|b|i|bits|kind].
  - apply Hptr, IH.
  - exact Hnil.
  - apply Hstruct. induction fields as [|[name field] fields IHf]; constructor.
    + apply IH.
    + exact IHf.
  - apply Hslice. induction elems as [|elem elems IHe]; constructor.
    + apply IH.
    + exact IHe.
  - apply Hstring.
  - apply Hbool.
  - apply Hint.
  - apply Hfloat.
  - apply Hother.
Qed.

Lemma prefix_empty (s : string) : String.prefix "" s = true.
Proof. by destruct s. Qed.

Section ExtractionFacts.
Variable ToCamel : string -> string.
Variable Sprintf_f : Z -> string.
Local Abbreviation listArguments := (listArguments ToCamel Sprintf_f).

(** The slice loop of [listArguments], with its accumulator. *)
Lemma listArguments_slice_loop vs resource startWith :
  listArguments (VSlice vs) resource startWith =
  fold_left
    (fun acc v =>
       and_then acc (fun slice =>
       and_then (listArguments v resource startWith) (fun arguments =>
       Ok (slice ++ arguments))))
    vs (Ok []).
Proof.
  cbn [listArguments]. generalize (@nil string).
  induction vs as [|v vs IH]; intros acc; [done|].
  cbn [fold_left and_then].
  destruct (listArguments v resource startWith) as [arguments|e|p].
  - apply IH.
  - clear IH. induction vs as [|v' vs IH]; [done|]. exact IH.
  - clear IH. induction vs as [|v' vs IH]; [done|]. exact IH.
Qed.

Lemma listArguments_filter_eq object resource startWith :
  listArguments object resource startWith =
  and_then (listArguments object resource "")
    (fun all => Ok (filter (fun val => String.prefix startWith val = true) all)).
Proof.
  revert resource. induction object as
    [|elem IH|fields IH|elems IH|s|b|i|bits|kind] using GoValue_induction;
    intros resource.
  - done.
  - apply IH.
  - destruct resource as [r|]; [|done].
    rewrite !listArguments_struct.
    destruct (FieldByName (ToCamel (Query_Name r)) fields) as [field|] eqn:Hf; [|done].
    assert (Hin : Forall (fun nv => nv.2 = field -> 
                   forall resource, listArguments field resource startWith =
                     and_then (listArguments field resource "")
                      (fun all => Ok (filter (fun val => String.prefix startWith val = true) all))) fields).
    { eapply Forall_impl; [exact IH|]. intros [n v] Hv; simpl. by intros <-. }
    clear IH. induction fields as [|[n v] fields IHf]; [done|].
    cbn [FieldByName] in Hf. apply Forall_cons in Hin as [Hv Hin].
    destruct (String.eqb n (ToCamel (Query_Name r))).
    + injection Hf as <-. by apply Hv.
    + by apply IHf.
  - rewrite !listArguments_slice_loop.
    set (keep := fun all : list string =>
                   @Ok (list string)
                     (filter (fun val => String.prefix startWith val = true) all)).
    assert (Hgen : forall accL accR,
              accL = and_then accR keep ->
              fold_left
                (fun acc v =>
                   and_then acc (fun slice =>
                   and_then (listArguments v resource startWith) (fun arguments =>
                   Ok (slice ++ arguments)))) elems accL =
              and_then
                (fold_left
                   (fun acc v =>
                      and_then acc (fun slice =>
                      and_then (listArguments v resource "") (fun arguments =>
                      Ok (slice ++ arguments)))) elems accR) keep);
      [|by apply Hgen].
    induction IH as [|v vs Hv _ IHvs]; intros accL accR Hacc; [done|].
    cbn [fold_left]. apply IHvs. rewrite Hacc, (Hv resource).
    destruct accR as [slice| |]; [|done..]. cbn [and_then].
    destruct (listArguments v resource "") as [arguments| |]; [|done..].
    cbn [and_then]. unfold keep. by rewrite filter_app.
  - destruct resource; [done|]. cbn. rewrite prefix_empty.
    cbn. by destruct (String.prefix startWith _).
  - destruct resource; [done|]. cbn. rewrite prefix_empty.
    cbn. by destruct (String.prefix startWith _).
  - destruct resource; [done|]. cbn. rewrite prefix_empty.
    cbn. by destruct (String.prefix startWith _).
  - destruct resource; [done|]. cbn. rewrite prefix_empty.
    cbn. by destruct (String.prefix startWith _).
  - by destruct resource.
Qed.

(** X14.  The prefix only filters: [listArguments] with a prefix is
    [listArguments] with the empty prefix followed by keeping the values
    that start with the prefix, failures included; so every value returned
    starts with the prefix. *)
Theorem listArguments_prefix_filters object resource startWith :
  listArguments object resource startWith =
  and_then (listArguments object resource "")
    (fun all => Ok (filter (fun val => String.prefix startWith val = true) all)) /\
  (forall out,
     listArguments object resource startWith = Ok out ->
     Forall (fun val => String.prefix startWith val = true) out).
Proof.
  split; [apply listArguments_filter_eq|].
  intros out. rewrite listArguments_filter_eq.
  destruct (listArguments object resource "") as [all| |]; [|done..].
  intros [= <-]. apply Forall_forall. by intros val [? _]%list_elem_of_filter.
Qed.

(** A failure left in the accumulator of the slice loop stays. *)
Lemma slice_loop_failed vs resource startWith (failure : outcome (list string)) :
  (forall out, failure <> Ok out) ->
  fold_left
    (fun acc v =>
       and_then acc (fun slice =>
       and_then (listArguments v resource startWith) (fun arguments =>
       Ok (slice ++ arguments))))
    vs failure = failure.
Proof.
  intros Hf. induction vs as [|v vs IH]; [done|].
  cbn [fold_left]. destruct failure as [out|e|p]; [by destruct (Hf out)|exact IH..].
Qed.

(** X15.  An empty slice yields no value, whatever the query node; and a slice
    yields the failure of its first element that fails, not the values of
    the elements before it. *)
Theorem listArguments_slice_all_or_nothing resource startWith :
  listArguments (VSlice []) resource startWith = Ok [] /\
  (forall pre outs bad post,
     Forall2 (fun v out => listArguments v resource startWith = Ok out) pre outs ->
     (forall out, listArguments bad resource startWith <> Ok out) ->
     listArguments (VSlice (pre ++ bad :: post)) resource startWith =
     listArguments bad resource startWith).
Proof.
  split; [done|].
  intros pre outs bad post Hpre Hbad.
  rewrite listArguments_slice_loop, fold_left_app.
  rewrite <-listArguments_slice_loop, (listArguments_slice _ _ _ _ _ outs Hpre).
  cbn [fold_left and_then].
  destruct (listArguments bad resource startWith) as [out|e|p] eqn:Hb.
  - by destruct (Hbad out).
  - apply slice_loop_failed. by intros out.
  - apply slice_loop_failed. by intros out.
Qed.

(** X16.  Where response and query disagree: a struct without the field that
    the query node names is an error that carries the name; a struct found
    under a query node without children is a nil dereference, a panic; a
    string found under a query node that has children is the error that a
    resource of string kind is not supported. *)
Theorem listArguments_shape_mismatch fields r startWith :
  (FieldByName (ToCamel (Query_Name r)) fields = None ->
   listArguments (VStruct fields) (Some r) startWith =
   Err (ErrCannotFindField (Query_Name r) (VStruct fields))) /\
  (forall inner,
     Query_Fields r = [] ->
     FieldByName (ToCamel (Query_Name r)) fields = Some (VStruct inner) ->
     listArguments (VStruct fields) (Some r) startWith = Panic NilDereference) /\
  (forall key child rest s,
     Query_Fields r = (key, child) :: rest ->
     FieldByName (ToCamel (Query_Name r)) fields = Some (VString s) ->
     listArguments (VStruct fields) (Some r) startWith =
     Err (ErrResourceKind "string")).
Proof.
  rewrite listArguments_struct. split; [|split].
  - by intros ->.
  - intros inner Hq ->. unfold first_child. by rewrite Hq.
  - intros key child rest s Hq ->. unfold first_child. by rewrite Hq.
Qed.

End ExtractionFacts.

(** ** More on the combination generator *)

Lemma NoDup_flat_map {A B} (f : A -> list B) (l : list A) :
  NoDup l ->
  (forall x, x ∈ l -> NoDup (f x)) ->
  (forall x y z, x ∈ l -> y ∈ l -> z ∈ f x -> z ∈ f y -> x = y) ->
  NoDup (flat_map f l).
Proof.
  induction 1 as [|x l Hx Hl IH]; intros Hf Hd; [constructor|].
  cbn [flat_map]. apply NoDup_app. split; [apply Hf; left|]. split.
  - intros z Hz Hz'. apply elem_of_flat_map in Hz' as (y & Hy & Hzy).
    assert (x = y) by (eapply Hd; [left|by right|done..]). by subst.
  - apply IH.
    + intros y Hy. apply Hf. by right.
    + intros y y' z Hy Hy'. apply Hd; by right.
Qed.

Lemma choose_NoDup {A} (k : nat) (l : list A) :
  NoDup l -> NoDup (Comb.choose k l).
Proof.
  intros Hl. revert k. induction Hl as [|x l Hx Hl IH]; intros [|k]; cbn.
  - apply NoDup_singleton.
  - constructor.
  - apply NoDup_singleton.
  - apply NoDup_app. split; [|split].
    + apply NoDup_fmap_2; [|apply IH]. by intros ?? [=].
    + intros c (c' & -> & _)%list_elem_of_fmap Hc.
      apply elem_of_choose in Hc as [Hs _].
      apply Hx. eapply elem_of_sublist; [|exact Hs]. by left.
    + apply IH.
Qed.

Lemma sublist_same_elements {A} (l l1 l2 : list A) :
  NoDup l -> l1 `sublist_of` l -> l2 `sublist_of` l ->
  (forall x, x ∈ l1 <-> x ∈ l2) -> l1 = l2.
Proof.
  intros Hl. revert l1 l2. induction Hl as [|x l Hx Hl IH]; intros l1 l2 H1 H2 Heq.
  - apply sublist_nil_r in H1, H2. by subst.
  - apply sublist_cons_r in H1 as [H1|(l1' & -> & H1)];
      apply sublist_cons_r in H2 as [H2|(l2' & -> & H2)].
    + by apply IH.
    + destruct Hx. eapply elem_of_sublist; [|exact H1]. apply Heq. by left.
    + destruct Hx. eapply elem_of_sublist; [|exact H2]. apply Heq. by left.
    + f_equal. apply IH; [done..|]. intros y.
      assert (Hy : y ∈ l -> y <> x) by (by intros ? ->).
      split; intros Hin.
      * assert (y ∈ x :: l2') as [->|]%elem_of_cons by (apply Heq; by right);
          [|done]. destruct (Hy (elem_of_sublist _ _ _ Hin H1)). done.
      * assert (y ∈ x :: l1') as [->|]%elem_of_cons by (apply Heq; by right);
          [|done]. destruct (Hy (elem_of_sublist _ _ _ Hin H2)). done.
Qed.

Lemma rotate_right_last {A} (t : list A) (m j : nat) :
  length t = S m -> (j <= m)%nat ->
  exists q x, Prmt.rotate_right j t = q ++ [x] /\ length q = m /\
              t !! (m - j)%nat = Some x.
Proof.
  intros Ht Hj. unfold Prmt.rotate_right. rewrite Ht.
  destruct (lookup_lt_is_Some_2 t (m - j)) as [x Hx]; [lia|].
  exists (drop (S m - j) t ++ take (m - j) t), x.
  replace (S m - j)%nat with (S (m - j)) by lia.
  rewrite (take_S_r _ _ x Hx), (assoc app). split; [done|]. split; [|done].
  rewrite length_app, length_drop, length_take. lia.
Qed.

Lemma rounds_of_elem_length {A} (n : nat) (l l' : list A) :
  (n <= length l)%nat -> l' ∈ Prmt.rounds_of n l -> length l' = length l.
Proof.
  intros Hn (p & -> & Hp)%elem_of_rounds_of; [|done].
  rewrite length_app, Hp, length_take, length_drop. lia.
Qed.

Lemma rounds_of_NoDup {A} (n : nat) (l : list A) :
  (n <= length l)%nat -> NoDup (take n l) -> NoDup (Prmt.rounds_of n l).
Proof.
  revert l. induction n as [|m IH]; intros l Hn Hnd; [apply NoDup_singleton|].
  cbn [Prmt.rounds_of].
  set (t := take (S m) l) in *.
  assert (Ht : length t = S m) by (unfold t; rewrite length_take; lia).
  apply NoDup_flat_map; [apply NoDup_seq| |].
  - intros j _. 
    pose proof (rotate_right_perm j t) as Hr.
    set (r := Prmt.rotate_right j t) in *.
    assert (Hlr : length r = S m) by (by rewrite Hr).
    apply NoDup_fmap_2_strong.
    + intros p p' _ _ Hpp. by apply app_inv_tail in Hpp.
    + apply IH; [rewrite length_take; lia|].
      rewrite take_take, Nat.min_id.
      eapply sublist_NoDup; [|apply sublist_take]. by rewrite Hr.
  - intros j j' z Hj Hj' Hz Hz'.
    apply elem_of_seq in Hj, Hj'.
    destruct (rotate_right_last t m j Ht) as (q & x & Hq & Hlq & Hx); [lia|].
    destruct (rotate_right_last t m j' Ht) as (q' & x' & Hq' & Hlq' & Hx'); [lia|].
    rewrite Hq in Hz. rewrite Hq' in Hz'.
    assert (Hd : drop m (q ++ [x]) = [x]) by (rewrite <-Hlq; apply drop_app_length).
    assert (Hd' : drop m (q' ++ [x']) = [x']) by (rewrite <-Hlq'; apply drop_app_length).
    rewrite Hd in Hz. rewrite Hd' in Hz'. clear Hd Hd'.
    apply list_elem_of_fmap in Hz as (p & -> & Hp).
    apply list_elem_of_fmap in Hz' as (p' & Hpp & Hp').
    apply rounds_of_elem_length in Hp; [|rewrite length_take, length_app; simpl; lia].
    apply rounds_of_elem_length in Hp'; [|rewrite length_take, length_app; simpl; lia].
    rewrite length_take, length_app in Hp, Hp'. cbn [length] in Hp, Hp'.
    apply app_inj_1 in Hpp as [_ Hpp]; [|lia].
    injection Hpp as ->.
    pose proof (NoDup_lookup t _ _ x' Hnd Hx Hx'). lia.
Qed.

Lemma rounds_NoDup {A} (l : list A) : NoDup l -> NoDup (Prmt.rounds l).
Proof.
  intros Hl. apply rounds_of_NoDup; [done|]. by rewrite firstn_all.
Qed.

Lemma nth_NoDup_inj (strs : list string) (i j : nat) :
  NoDup strs -> (i < length strs)%nat -> (j < length strs)%nat ->
  nth i strs "" = nth j strs "" -> i = j.
Proof.
  intros Hs Hi Hj Hij.
  destruct (lookup_lt_is_Some_2 strs i Hi) as [x Hx].
  destruct (lookup_lt_is_Some_2 strs j Hj) as [y Hy].
  rewrite (nth_lookup_Some _ _ _ _ Hx), (nth_lookup_Some _ _ _ _ Hy) in Hij.
  subst y. by eapply NoDup_lookup.
Qed.

Lemma sublist_seq_lt (indexes : list nat) (n i : nat) :
  indexes `sublist_of` seq 0 n -> i ∈ indexes -> (i < n)%nat.
Proof.
  intros Hs Hi. apply (elem_of_sublist _ _ _ Hi), elem_of_seq in Hs. lia.
Qed.

Lemma fill_NoDup (strs : list string) (indexes : list nat) :
  NoDup strs -> indexes `sublist_of` seq 0 (length strs) ->
  NoDup (fill strs indexes).
Proof.
  intros Hs Hi. apply NoDup_fmap_2_strong.
  - intros i j Hi' Hj'. apply nth_NoDup_inj; [done|by eapply sublist_seq_lt..].
  - eapply sublist_NoDup; [apply NoDup_seq|done].
Qed.

(** The orderings of two index combinations meet only when the
    combinations are the same. *)
Lemma fill_rounds_disjoint (strs : list string) (i1 i2 : list nat) (r : list string) :
  NoDup strs ->
  i1 `sublist_of` seq 0 (length strs) -> i2 `sublist_of` seq 0 (length strs) ->
  r ∈ Prmt.rounds (fill strs i1) -> r ∈ Prmt.rounds (fill strs i2) -> i1 = i2.
Proof.
  intros Hs H1 H2 Hr1%elem_of_rounds Hr2%elem_of_rounds.
  assert (Hsame : forall a b, a `sublist_of` seq 0 (length strs) ->
                    b `sublist_of` seq 0 (length strs) ->
                    fill strs a ≡ₚ fill strs b -> forall x, x ∈ a -> x ∈ b).
  { intros a b Ha Hb Hab x Hx.
    assert (Hin : nth x strs "" ∈ fill strs b).
    { rewrite <-Hab. apply list_elem_of_fmap. by exists x. }
    apply list_elem_of_fmap in Hin as (y & Hxy & Hy).
    assert (x = y) as -> by
      (apply (nth_NoDup_inj strs);
         [done|exact (sublist_seq_lt a _ x Ha Hx)|exact (sublist_seq_lt b _ y Hb Hy)|done]).
    done. }
  apply (sublist_same_elements (seq 0 (length strs))); [apply NoDup_seq|done..|].
  intros x. split; apply Hsame; try done.
  - by rewrite Hr1, Hr2.
  - by rewrite Hr1, Hr2.
Qed.

(** X17.  On distinct names [fullPermutation] returns no ordering twice. *)
Theorem fullPermutation_NoDup (strs : list string) (results : list (list string)) :
  NoDup strs -> fullPermutation strs = Ok results -> NoDup results.
Proof.
  intros Hs. destruct strs as [|s tail]; [done|]. intros [= <-].
  set (strs := s :: tail) in *.
  apply NoDup_flat_map; [apply NoDup_seq| |].
  - intros i _. apply NoDup_flat_map.
    + apply choose_NoDup, NoDup_seq.
    + intros indexes [Hsub _]%elem_of_choose. by apply rounds_NoDup, fill_NoDup.
    + intros i1 i2 r [H1 _]%elem_of_choose [H2 _]%elem_of_choose.
      by apply fill_rounds_disjoint.
  - intros i i' r _ _ Hr Hr'.
    apply elem_of_flat_map in Hr as (i1 & [_ H1]%elem_of_choose & Hr1%elem_of_rounds).
    apply elem_of_flat_map in Hr' as (i2 & [_ H2]%elem_of_choose & Hr2%elem_of_rounds).
    apply Permutation_length in Hr1, Hr2. rewrite fill_length in Hr1, Hr2. lia.
Qed.

Lemma map_length_const {A} (l : list (list A)) (k : nat) :
  Forall (fun x => length x = k) l -> map length l = replicate (length l) k.
Proof.
  induction 1 as [|x l Hx _ IH]; [done|]. cbn. by rewrite Hx, IH.
Qed.

Lemma map_flat_map {A B C} (g : B -> C) (f : A -> list B) (l : list A) :
  map g (flat_map f l) = flat_map (fun x => map g (f x)) l.
Proof.
  induction l as [|x l IH]; [done|]. cbn. by rewrite map_app, IH.
Qed.

(** X18.  The results of [fullPermutation] come by size: for each size k
    from 1 to N-1 in turn, C(N,k) * k! orderings of k names. *)
Theorem fullPermutation_sizes_ascend (strs : list string) (results : list (list string)) :
  fullPermutation strs = Ok results ->
  map length results =
  flat_map (fun k => replicate (binomial (length strs) k * fact k) k)
           (seq 1 (length strs - 1)).
Proof.
  destruct strs as [|s tail]; [done|]. intros [= <-].
  set (strs := s :: tail).
  change (length strs) with (S (length tail)).
  replace (S (length tail) - 1)%nat with (length tail) by lia.
  rewrite map_flat_map, <-(fmap_S_seq 0).
  rewrite flat_map_concat_map, flat_map_concat_map, <-list_fmap_compose.
  f_equal. apply map_ext_in. intros i _. unfold compose.
  replace (i + 1)%nat with (S i) by lia.
  rewrite (map_length_const _ (S i)).
  - f_equal. rewrite (flat_map_length_const _ _ (fact (S i))).
    + unfold Comb.rounds. by rewrite choose_length, length_seq.
    + intros indexes Hin. apply list_elem_of_In, elem_of_choose in Hin as [_ Hk].
      by rewrite rounds_length, fill_length, Hk.
  - apply Forall_forall. intros r Hr.
    apply elem_of_flat_map in Hr as (i1 & [_ H1]%elem_of_choose & Hr1%elem_of_rounds).
    apply Permutation_length in Hr1. rewrite fill_length in Hr1. lia.
Qed.

(** ** The further properties at the fixture *)

Lemma ListArguments_filters_by_argumentName_witness :
  fst <$> Fixture.lister Fixture.client Cases.prefixed "name" Cases.prefixed_heap =
  Some (list_request Fixture.ToCamel Fixture.Sprintf_f Fixture.client
          ["namespace"; "ns1"; "pods"; "name"] "name").
Proof.
  apply (ListArguments_filters_by_argumentName Fixture.growcap Fixture.Plural
           Fixture.ToCamel Fixture.Sprintf_f Fixture.client Cases.prefixed "name"
           Cases.prefixed_heap ["namespace"; "ns1"; "pods"; "p"]).
  - split; [simpl; lia|]. eexists. split; [reflexivity|]. split; [simpl; lia|reflexivity].
  - simpl. lia.
Defined.

Lemma ListArguments_overwrites_queryStr_witness :
  exists o h',
    Fixture.lister Fixture.client Cases.prefixed "name" Cases.prefixed_heap =
      Some (o, h') /\
    holds h' Cases.prefixed ["namespace"; "ns1"; "pods"; "name"].
Proof.
  destruct (ListArguments_overwrites_queryStr Fixture.growcap Fixture.Plural
              Fixture.ToCamel Fixture.Sprintf_f Fixture.client Cases.prefixed "name"
              Cases.prefixed_heap ["namespace"; "ns1"; "pods"; "p"] Fixture.QueryRoot)
    as (o & h' & Hrun & Hholds & _).
  - reflexivity.
  - split; [simpl; lia|]. eexists. split; [reflexivity|]. split; [simpl; lia|reflexivity].
  - simpl. lia.
  - exists o, h'. split; [exact Hrun|exact Hholds].
Defined.

Lemma ListArguments_short_path_witness :
  Fixture.lister Fixture.client (mkSlice 0 1 1) "name" [["pods"]] =
    Some (Panic (IndexRange (-1) 0), [["pods"]]) /\
  Fixture.lister Cases.bare_client Cases.prefixed "name" Cases.prefixed_heap =
    Some (Err (ErrForeign "no such type: Query"), Cases.prefixed_heap).
Proof.
  destruct (ListArguments_short_path Fixture.growcap Fixture.Plural Fixture.ToCamel
              Fixture.Sprintf_f Fixture.client (mkSlice 0 1 1) "name" [["pods"]])
    as (_ & _ & Hone).
  destruct (ListArguments_short_path Fixture.growcap Fixture.Plural Fixture.ToCamel
              Fixture.Sprintf_f Cases.bare_client Cases.prefixed "name"
              Cases.prefixed_heap) as (Hmissing & _).
  split.
  - apply (Hone Fixture.QueryRoot); [reflexivity|reflexivity|simpl; lia].
  - apply Hmissing. reflexivity.
Defined.

Lemma listArguments_prefix_filters_witness :
  Forall (fun val => String.prefix "ns-" val = true) ["ns-a"; "ns-b"].
Proof.
  apply (proj2 (listArguments_prefix_filters Fixture.ToCamel Fixture.Sprintf_f
                  Fixture.namespaces (Some Fixture.namespaces_query) "ns-")).
  reflexivity.
Defined.

Lemma listArguments_slice_all_or_nothing_witness :
  listArguments Fixture.ToCamel Fixture.Sprintf_f
    (VSlice [VString "a"; VOther "map"; VString "b"]) None "" =
  Err (ErrUnsupportedValue (VOther "map")).
Proof.
  apply (proj2 (listArguments_slice_all_or_nothing Fixture.ToCamel Fixture.Sprintf_f
                  None "") [VString "a"] [["a"]] (VOther "map") [VString "b"]).
  - constructor; [reflexivity|constructor].
  - intros out. discriminate.
Defined.

Lemma listArguments_shape_mismatch_witness :
  listArguments Fixture.ToCamel Fixture.Sprintf_f
    (VStruct [("Pods", VSlice [])]) (Some Fixture.namespaces_query) "" =
  Err (ErrCannotFindField "namespace" (VStruct [("Pods", VSlice [])])).
Proof.
  apply (proj1 (listArguments_shape_mismatch Fixture.ToCamel Fixture.Sprintf_f
                  [("Pods", VSlice [])] Fixture.namespaces_query "")).
  reflexivity.
Defined.

Lemma CompleteQuery_ends_witness :
  Fixture.request Cases.bare_client "ns1" false [] =
  Some (Err (ErrForeign "no such type: Namespace"), []).
Proof.
  apply (proj2 (CompleteQuery_ends Fixture.growcap Fixture.Plural Fixture.ToCamel
                  Fixture.Sprintf_f Cases.bare_client "ns1" false [])).
  reflexivity.
Defined.

Lemma completeQuery_scalar_fields_witness :
  fst <$> Fixture.engine Fixture.client 2 (Fixture.root_ctx false) Fixture.Pod
            Fixture.root_heap =
  Some (Ok ["name"; "action"]).
Proof.
  apply (completeQuery_scalar_fields Fixture.growcap Fixture.Plural Fixture.ToCamel
           Fixture.Sprintf_f Fixture.client 0 (Fixture.root_ctx false) Fixture.Pod
           Fixture.root_heap); try reflexivity.
  repeat constructor; exists Fixture.String_; repeat split; by left.
Defined.

Lemma completeQuery_last_level_witness :
  fst <$> Fixture.engine Fixture.client 2 Cases.last_ctx Fixture.Holder
            Fixture.root_heap =
  Some (Ok ["pod"]).
Proof.
  apply (completeQuery_last_level Fixture.growcap Fixture.Plural Fixture.ToCamel
           Fixture.Sprintf_f Fixture.client 0 Cases.last_ctx Fixture.Holder
           Fixture.root_heap); try reflexivity.
  repeat constructor. exists Fixture.Pod. split; reflexivity.
Defined.

Lemma completeQuery_first_failure_witness :
  exists h1,
    Fixture.engine Fixture.client 7 (Fixture.root_ctx false) Cases.Broken
      Fixture.root_heap =
    Some (Err (ErrForeign "no such type: Ghost"), h1).
Proof.
  eexists.
  eapply (completeQuery_first_failure Fixture.growcap Fixture.Plural Fixture.ToCamel
            Fixture.Sprintf_f Fixture.client 6 (Fixture.root_ctx false) Cases.Broken
            [Field.mk "name" (NamedRef ScalarKind "String") []]
            (Field.mk "ghost" (NamedRef ObjectKind "Ghost") [])
            [Field.mk "action" (NamedRef ScalarKind "String") []]).
  - reflexivity.
  - reflexivity.
  - reflexivity.
  - vm_compute. reflexivity.
  - reflexivity.
Defined.

Lemma field_with_arguments_request_witness :
  fst <$> field_step Fixture.growcap Fixture.Plural Fixture.ToCamel
            Fixture.Sprintf_f Fixture.client (Fixture.engine Fixture.client 6)
            (Fixture.root_ctx false) Cases.namespace_field ([], [])
            Fixture.root_heap =
  Some (Err (ErrForeign "namespace not found")).
Proof.
  apply (proj1 (field_with_arguments_request Fixture.growcap Fixture.Plural
                  Fixture.ToCamel Fixture.Sprintf_f Fixture.client
                  (Fixture.engine Fixture.client 6) (Fixture.root_ctx false)
                  Cases.namespace_field
                  (Argument.mk "ns" (NamedRef ScalarKind "String")) []
                  Fixture.Namespace ([], []) Fixture.root_heap
                  ["namespace"; "ns1"] eq_refl eq_refl eq_refl
                  (conj (le_n 2)
                     (ex_intro _ ["namespace"; "ns1"]
                        (conj eq_refl (conj (le_n 2) eq_refl))))
                  (le_S _ _ (le_n 1)))).
  reflexivity.
Defined.

Lemma listing_rewrites_context_path_witness :
  exists o h',
    (let! queryStr := append Fixture.growcap (mkSlice 0 3 4) "container" in
     Fixture.lister Fixture.client queryStr "name") Cases.pods_heap = Some (o, h') /\
    holds h' (mkSlice 0 3 4) ["namespace"; "ns1"; "pods"].
Proof.
  destruct (listing_rewrites_context_path Fixture.growcap Fixture.Plural
              Fixture.ToCamel Fixture.Sprintf_f Fixture.client (mkSlice 0 3 4)
              "container" "name" Cases.pods_heap ["namespace"; "ns1"; "pod"]
              Fixture.QueryRoot)
    as (o & h' & Hrun & Hspare & _).
  - reflexivity.
  - split; [simpl; lia|]. eexists. split; [reflexivity|]. split; [simpl; lia|reflexivity].
  - simpl. lia.
  - exists o, h'. split; [exact Hrun|]. apply Hspare. simpl. lia.
Defined.

Lemma field_with_arguments_never_leaf_witness :
  Field.Args Cases.pod_field <> [] /\
  field_step Fixture.growcap Fixture.Plural Fixture.ToCamel Fixture.Sprintf_f
    Fixture.client (Fixture.engine Fixture.client 5) Cases.pods_ctx
    Cases.pod_field ([], ["name"]) Cases.pods_heap =
  Some (Ok ([], ["name"]), [["namespace"; "ns1"; "pods"; "name"]]) /\
  ["name"] = ["name"].
Proof.
  split; [discriminate|]. split; [reflexivity|].
  apply (field_with_arguments_never_leaf Fixture.growcap Fixture.Plural
           Fixture.ToCamel Fixture.Sprintf_f Fixture.client
           (Fixture.engine Fixture.client 5) Cases.pods_ctx Cases.pod_field
           [] ["name"] Cases.pods_heap [] ["name"]
           [["namespace"; "ns1"; "pods"; "name"]]).
  - discriminate.
  - reflexivity.
Defined.

Lemma completeQuery_single_leaf_dropped_witness :
  exists h',
    Fixture.engine Fixture.client 7 (Fixture.root_ctx true) Fixture.Namespace
      Fixture.root_heap =
    Some (Ok ["pods/name"; "pods/action"], h').
Proof.
  eexists.
  eapply (completeQuery_single_leaf_dropped Fixture.growcap Fixture.Plural
            Fixture.ToCamel Fixture.Sprintf_f Fixture.client 6
            (Fixture.root_ctx true) Fixture.Namespace Fixture.root_heap
            ["pods/name"; "pods/action"] "ns"); [reflexivity..|].
  vm_compute. reflexivity.
Defined.

Lemma fullPermutation_NoDup_witness :
  NoDup [["a"]; ["b"]; ["c"];
         ["a"; "b"]; ["b"; "a"]; ["a"; "c"]; ["c"; "a"]; ["b"; "c"]; ["c"; "b"]].
Proof.
  apply (fullPermutation_NoDup ["a"; "b"; "c"]).
  - apply NoDup_ListNoDup. repeat constructor; simpl; intuition discriminate.
  - reflexivity.
Defined.

Lemma fullPermutation_sizes_ascend_witness :
  map length
    [["a"]; ["b"]; ["c"];
     ["a"; "b"]; ["b"; "a"]; ["a"; "c"]; ["c"; "a"]; ["b"; "c"]; ["c"; "b"]] =
  [1; 1; 1; 2; 2; 2; 2; 2; 2]%nat.
Proof.
  apply (fullPermutation_sizes_ascend ["a"; "b"; "c"]). reflexivity.
Defined.
